(** * sqf::value — a shallow embedding of [sqf-value/value.h]

    The header defines one class, [sqf::value]: a type tag [m_type] next to a
    [std::variant] payload [m_variant], typed accessors, comparison and
    arithmetic operators, a serializer [to_string] and a recursive-descent
    parser [parse].

    Conventions of the embedding.
    - [char] is [ascii] (eight bits); [std::string] and [std::string_view]
      are [list ascii]; an iterator into a view is the index [nat] of the
      character it points to, [end] is the length of the view.
    - [float] is IEEE binary32 and [double] is binary64, both carried by
      [spec_float] of the standard library with the matching precision.
    - A call has an [outcome]: it returns, it throws one of the standard
      exceptions the header can raise, or its behaviour is undefined.  Moving
      an iterator is plain index arithmetic; reading through an iterator that
      is not inside the view is [Undefined].
    - The view handed to [parse] spans a NUL-terminated character array (a
      string literal or a [std::string]), which is what [parse_scalar] relies
      on when it passes [data()] to [std::stof].
    - Memory is unbounded: no allocation fails, and a size is a [Z]; the one
      size that the header can compute below zero is handled where it
      occurs (see [reserve]). *)

From Stdlib Require Import Ascii String.
From Stdlib Require Import ZArith List Bool Lia PeanoNat.
From Stdlib Require Import Floats.SpecFloat DecimalString.
Import ListNotations.

Local Open Scope bool_scope.
Local Open Scope nat_scope.

(** ** Outcomes *)

Inductive exception : Type :=
| bad_variant_access   (* std::get on the wrong alternative *)
| invalid_argument     (* std::stof: no conversion *)
| out_of_range         (* std::stof: value out of range; string_view::substr *)
| length_error.        (* std::string::reserve beyond max_size() *)

Inductive outcome (A : Type) : Type :=
| Ok (a : A)
| Throw (e : exception)
| Undefined.

Arguments Ok {A} a.
Arguments Throw {A} e.
Arguments Undefined {A}.

Definition bind {A B : Type} (c : outcome A) (k : A -> outcome B) : outcome B :=
  match c with
  | Ok a => k a
  | Throw e => Throw e
  | Undefined => Undefined
  end.

Declare Scope outcome_scope.
Delimit Scope outcome_scope with outcome.
Notation "x <- c ;; k" := (bind c (fun x => k))
  (at level 61, c at next level, right associativity) : outcome_scope.
Notation "' p <- c ;; k" := (bind c (fun x => let 'p := x in k))
  (at level 61, p pattern, c at next level, right associativity) : outcome_scope.
Local Open Scope outcome_scope.

(** ** Characters and text *)

Abbreviation text := (list ascii).

Definition str (s : string) : text := list_ascii_of_string s.
Arguments str s%_string.

Definition char_eqb (a b : ascii) : bool := Ascii.eqb a b.

(** [std::tolower] in the "C" locale: only 'A'..'Z' are folded. *)
Definition tolower (c : ascii) : ascii :=
  let n := nat_of_ascii c in
  if (65 <=? n) && (n <=? 90) then ascii_of_nat (n + 32) else c.

(** ** Floating point: binary32 payloads, binary64 literals *)

Module F32.
Definition prec : Z := 24.
Definition emax : Z := 128.
Definition t : Type := spec_float.
Definition zero : t := S754_zero false.
Definition eqb : t -> t -> bool := SFeqb.
Definition ltb : t -> t -> bool := SFltb.
Definition leb : t -> t -> bool := SFleb.
Definition add : t -> t -> t := SFadd prec emax.
Definition sub : t -> t -> t := SFsub prec emax.
Definition mul : t -> t -> t := SFmul prec emax.
Definition div : t -> t -> t := SFdiv prec emax.
(** [(float)i] for an integer. *)
Definition of_Z (z : Z) : t := binary_normalize prec emax z 0 false.
(** The exactly representable value [m * 2^e], rounded if it is not. *)
Definition of_bits (m e : Z) : t := binary_normalize prec emax m e false.
End F32.

Module F64.
Definition prec : Z := 53.
Definition emax : Z := 1024.
Definition t : Type := spec_float.
Definition ltb : t -> t -> bool := SFltb.
Definition leb : t -> t -> bool := SFleb.
Definition of_bits (m e : Z) : t := binary_normalize prec emax m e false.
End F64.

Abbreviation float := F32.t.
Abbreviation double := F64.t.

(** [(float)d]: narrowing, round to nearest even. *)
Definition float_of_double (d : double) : float :=
  match d with
  | S754_finite s m e => binary_normalize F32.prec F32.emax (cond_Zopp s (Zpos m)) e s
  | _ => d
  end.

(** [(double)f]: widening is exact. *)
Definition double_of_float (f : float) : double :=
  match f with
  | S754_finite s m e => binary_normalize F64.prec F64.emax (cond_Zopp s (Zpos m)) e s
  | _ => f
  end.

(** ** The class [sqf::value] *)

Module value_type.
Inductive t : Type := Nil | Array | Boolean | Scalar | String.

Definition eqb (a b : t) : bool :=
  match a, b with
  | Nil, Nil | Array, Array | Boolean, Boolean | Scalar, Scalar | String, String => true
  | _, _ => false
  end.

End value_type.

(** [std::variant<std::monostate, std::vector<value>, std::string, bool, float>] *)
Inductive variant (V : Type) : Type :=
| monostate
| vector (l : list V)
| string_ (s : text)
| bool_ (b : bool)
| float_ (f : float).

Arguments monostate {V}.
Arguments vector {V} l.
Arguments string_ {V} s.
Arguments bool_ {V} b.
Arguments float_ {V} f.

#[warnings="-register-all"]
Inductive value : Type :=
| Value (m_type : value_type.t) (m_variant : variant value).

Definition m_type (v : value) : value_type.t := let 'Value t _ := v in t.
Definition m_variant (v : value) : variant value := let 'Value _ p := v in p.

(** [std::get<T>(m_variant)] throws when another alternative is active. *)
Definition get_vector (p : variant value) : outcome (list value) :=
  match p with vector l => Ok l | _ => Throw bad_variant_access end.
Definition get_string (p : variant value) : outcome text :=
  match p with string_ s => Ok s | _ => Throw bad_variant_access end.
Definition get_bool (p : variant value) : outcome bool :=
  match p with bool_ b => Ok b | _ => Throw bad_variant_access end.
Definition get_float (p : variant value) : outcome float :=
  match p with float_ f => Ok f | _ => Throw bad_variant_access end.

(** *** Constructors *)

Definition value_nil : value := Value value_type.Nil monostate.
Definition value_double (scalarD : double) : value :=
  Value value_type.Scalar (float_ (float_of_double scalarD)).
Definition value_float (scalar : float) : value := Value value_type.Scalar (float_ scalar).
Definition value_int (scalar : Z) : value := Value value_type.Scalar (float_ (F32.of_Z scalar)).
Definition value_bool (boolean : bool) : value := Value value_type.Boolean (bool_ boolean).
Definition value_string (s : text) : value := Value value_type.String (string_ s).
Definition value_array (vec : list value) : value := Value value_type.Array (vector vec).

(** *** Private accessors, mutable overloads

    Each returns the payload together with the object as the call leaves it.
    On a mismatch the header assigns a default to [m_variant]; it does not
    assign [m_type]. *)

Definition as_float (v : value) : outcome (float * value) :=
  let v' := if negb (value_type.eqb (m_type v) value_type.Scalar)
            then Value (m_type v) (float_ F32.zero) else v in
  f <- get_float (m_variant v') ;; Ok (f, v').

Definition as_bool (v : value) : outcome (bool * value) :=
  let v' := if negb (value_type.eqb (m_type v) value_type.Boolean)
            then Value (m_type v) (bool_ false) else v in
  b <- get_bool (m_variant v') ;; Ok (b, v').

Definition as_string (v : value) : outcome (text * value) :=
  let v' := if negb (value_type.eqb (m_type v) value_type.String)
            then Value (m_type v) (string_ []) else v in
  s <- get_string (m_variant v') ;; Ok (s, v').

Definition as_array (v : value) : outcome (list value * value) :=
  let v' := if negb (value_type.eqb (m_type v) value_type.Array)
            then Value (m_type v) (vector []) else v in
  l <- get_vector (m_variant v') ;; Ok (l, v').

(** *** Private accessors, const overloads *)

Definition as_float_const (v : value) : outcome float :=
  if value_type.eqb (m_type v) value_type.Scalar then get_float (m_variant v) else Ok F32.zero.

Definition as_bool_const (v : value) : outcome bool :=
  if value_type.eqb (m_type v) value_type.Boolean then get_bool (m_variant v) else Ok false.

Definition as_string_const (v : value) : outcome text :=
  if value_type.eqb (m_type v) value_type.String then get_string (m_variant v) else Ok [].

Definition as_array_const (v : value) : outcome (list value) :=
  if value_type.eqb (m_type v) value_type.Array then get_vector (m_variant v) else Ok [].

(** *** Conversion operators and type predicates *)

Definition operator_float (v : value) : outcome (float * value) := as_float v.
Definition operator_bool (v : value) : outcome (bool * value) := as_bool v.
Definition operator_string (v : value) : outcome (text * value) := as_string v.

Definition operator_float_const (v : value) : outcome float := as_float_const v.
Definition operator_bool_const (v : value) : outcome bool := as_bool_const v.
Definition operator_string_const (v : value) : outcome text := as_string_const v.
Definition operator_vector_const (v : value) : outcome (list value) := as_array_const v.

Definition is_array (v : value) : bool := value_type.eqb (m_type v) value_type.Array.
Definition is_scalar (v : value) : bool := value_type.eqb (m_type v) value_type.Scalar.
Definition is_boolean (v : value) : bool := value_type.eqb (m_type v) value_type.Boolean.
Definition is_string (v : value) : bool := value_type.eqb (m_type v) value_type.String.
Definition is_nil (v : value) : bool := value_type.eqb (m_type v) value_type.Nil.

(** [at(i)] and [operator[]]: [std::get] on the vector, then an unchecked index. *)
Definition at_ (v : value) (m_index : nat) : outcome value :=
  l <- get_vector (m_variant v) ;;
  match nth_error l m_index with
  | Some x => Ok x
  | None => Undefined
  end.

(** ** Equality *)

(** [std::equal(first1, last1, first2, last2 [, pred])] on random-access
    ranges: unequal lengths give [false] at once; otherwise the pairs are
    compared in order and the first mismatch ends the loop. *)
Section std_equal.
Context {A B : Type} (pred : A -> B -> outcome bool).

Fixpoint equal_loop (a : list A) (b : list B) : outcome bool :=
  match a, b with
  | [], _ => Ok true
  | x :: a', y :: b' => r <- pred x y ;; if r then equal_loop a' b' else Ok false
  | _ :: _, [] => Undefined
  end.

Definition std_equal (a : list A) (b : list B) : outcome bool :=
  if negb (length a =? length b) then Ok false else equal_loop a b.
End std_equal.

Fixpoint equals (self other : value) {struct self} : outcome bool :=
  if negb (value_type.eqb (m_type other) (m_type self)) then Ok false else
  match m_type self with
  | value_type.Nil => Ok true
  | value_type.Boolean =>
      a <- as_bool_const self ;; b <- as_bool_const other ;; Ok (Bool.eqb a b)
  | value_type.Scalar =>
      a <- as_float_const self ;; b <- as_float_const other ;; Ok (F32.eqb a b)
  | value_type.String =>
      a <- as_string_const self ;; b <- as_string_const other ;;
      Ok (if list_eq_dec ascii_dec a b then true else false)
  | value_type.Array =>
      match self with
      | Value _ (vector a) =>
          b <- get_vector (m_variant other) ;; std_equal equals a b
      | _ => Throw bad_variant_access
      end
  end.

Definition equals_invariant (self other : value) : outcome bool :=
  if negb (value_type.eqb (m_type other) (m_type self)) then Ok false else
  match m_type self with
  | value_type.Nil => Ok true
  | value_type.Boolean =>
      a <- as_bool_const self ;; b <- as_bool_const other ;; Ok (Bool.eqb a b)
  | value_type.Scalar =>
      a <- as_float_const self ;; b <- as_float_const other ;; Ok (F32.eqb a b)
  | value_type.String =>
      a <- get_string (m_variant self) ;; b <- get_string (m_variant other) ;;
      std_equal (fun l r => Ok (char_eqb (tolower l) (tolower r))) a b
  | value_type.Array =>
      a <- get_vector (m_variant self) ;; b <- get_vector (m_variant other) ;;
      std_equal equals a b
  end.

(** ** Operators *)

Definition negb_ (r : outcome bool) : outcome bool := b <- r ;; Ok (negb b).

Definition op_eq_vector (self : value) (other : list value) : outcome bool :=
  if negb (value_type.eqb (m_type self) value_type.Array) then Ok false else
  a <- get_vector (m_variant self) ;; std_equal equals a other.
Definition op_ne_vector (self : value) (other : list value) : outcome bool :=
  negb_ (op_eq_vector self other).

Definition op_eq (self other : value) : outcome bool := equals self other.
Definition op_ne (self other : value) : outcome bool := negb_ (equals self other).

Definition op_eq_string (self : value) (other : text) : outcome bool :=
  if negb (value_type.eqb (m_type self) value_type.String) then Ok false else
  s <- as_string_const self ;; Ok (if list_eq_dec ascii_dec other s then true else false).
Definition op_ne_string (self : value) (other : text) : outcome bool :=
  negb_ (op_eq_string self other).

(** The relational operators against a [float]: the literal is the left
    operand of the comparison, the payload the right one. *)
Definition op_rel_float (rel : float -> float -> bool) (self : value) (other : float)
  : outcome bool :=
  if negb (value_type.eqb (m_type self) value_type.Scalar) then Ok false else
  p <- as_float_const self ;; Ok (rel other p).

Definition op_eq_float := op_rel_float F32.eqb.
Definition op_ne_float (self : value) (other : float) := negb_ (op_eq_float self other).
Definition op_le_float := op_rel_float F32.leb.
Definition op_lt_float := op_rel_float F32.ltb.
Definition op_ge_float := op_rel_float (fun x p => F32.leb p x).
Definition op_gt_float := op_rel_float (fun x p => F32.ltb p x).

(** Against a [double]: the literal is narrowed with [(float)other] first. *)
Definition op_eq_double (self : value) (other : double) := op_eq_float self (float_of_double other).
Definition op_le_double (self : value) (other : double) := op_le_float self (float_of_double other).
Definition op_lt_double (self : value) (other : double) := op_lt_float self (float_of_double other).
Definition op_ge_double (self : value) (other : double) := op_ge_float self (float_of_double other).
Definition op_gt_double (self : value) (other : double) := op_gt_float self (float_of_double other).

Definition op_and (self : value) (other : bool) : outcome bool :=
  if negb (value_type.eqb (m_type self) value_type.Boolean) then Ok false else
  if other then as_bool_const self else Ok false.
Definition op_or (self : value) (other : bool) : outcome bool :=
  if negb (value_type.eqb (m_type self) value_type.Boolean) then Ok false else
  if other then Ok true else as_bool_const self.

Definition op_arith (f : float -> float -> float) (self other : value) : outcome value :=
  if negb (value_type.eqb (m_type self) value_type.Scalar)
     || negb (value_type.eqb (m_type other) value_type.Scalar)
  then Ok (value_bool false)
  else a <- as_float_const self ;; b <- as_float_const other ;; Ok (value_float (f a b)).

Definition op_add := op_arith F32.add.
Definition op_sub := op_arith F32.sub.
Definition op_mul := op_arith F32.mul.
Definition op_div := op_arith F32.div.

(** ** The host's float primitives

    [std::stof(str, &size)] and [std::ostream << float] are the two library
    calls the header leaves the number syntax to.  [std::stof] either
    converts a prefix of [str] and reports how many characters it processed
    (at least one), or throws. *)

Inductive stof_result : Type :=
| stof_ok (f : float) (size : positive)
| stof_invalid_argument
| stof_out_of_range.

(** ** Characters the parser looks at *)

Definition dquote : ascii := ascii_of_nat 34.
Definition squote : ascii := ascii_of_nat 39.
Definition NUL : ascii := ascii_of_nat 0.

Definition is_digit (c : ascii) : bool :=
  let n := nat_of_ascii c in (48 <=? n) && (n <=? 57).

(** The cases of the [switch] on the current character in [parse_]. *)
Inductive dispatch_case : Type :=
| case_array | case_string | case_boolean | case_scalar | case_default.

Definition dispatch (c : ascii) : dispatch_case :=
  if char_eqb c "[" then case_array
  else if char_eqb c dquote || char_eqb c squote then case_string
  else if char_eqb c "t" || char_eqb c "f" then case_boolean
  else if is_digit c || char_eqb c "-" || char_eqb c "+" || char_eqb c "." then case_scalar
  else case_default.

(** The character array behind [data()], read as a C string. *)
Fixpoint c_str (s : text) : text :=
  match s with
  | [] => []
  | c :: s' => if char_eqb c NUL then [] else c :: c_str s'
  end.

(** [view.substr(pos)] *)
Definition substr (view : text) (pos : nat) : outcome text :=
  if length view <? pos then Throw out_of_range else Ok (skipn pos view).

(** [target.reserve(len - quotes)].  [len] is a [ptrdiff_t] and [quotes] a
    [size_t], so the difference is taken in [size_t]; [new_cap] is the
    difference before that conversion.  Below zero it wraps to a size at the
    top of [size_t], above [max_size()] of any [std::string], and [reserve]
    throws; from zero on it is at most the length of the view and is
    granted. *)
Definition reserve (new_cap : Z) : outcome unit :=
  if (new_cap <? 0)%Z then Throw length_error else Ok tt.

(** ** Serializer pieces *)

(** The escaping loop of [to_string]: every character is copied, a double
    quote is copied twice. *)
Fixpoint escape_quotes (s : text) : text :=
  match s with
  | [] => []
  | c :: s' => if char_eqb c dquote then c :: dquote :: escape_quotes s'
               else c :: escape_quotes s'
  end.

(** The loop over the elements of an array: [flag] is false before the
    first element, [sstream] is what was written so far. *)
Section array_items.
Context (item : value -> outcome text).

Fixpoint array_items (l : list value) (flag : bool) (sstream : text) : outcome text :=
  match l with
  | [] => Ok sstream
  | it :: l' =>
      let sstream := if flag then sstream ++ [","%char] else sstream in
      s <- item it ;; array_items l' true (sstream ++ s)
  end.
End array_items.

(** ** Parser pieces that do not recurse *)

(** First loop of [parse_string]: [rest] is the view from [copy] on; the
    result is [copy] and [quotes] when the loop is left. *)
Fixpoint find_end (c : ascii) (rest : text) (copy quotes : nat) : nat * nat :=
  match rest with
  | [] => (copy, quotes)
  | x :: rest' =>
      if char_eqb x c then
        match rest' with
        | y :: rest'' =>
            if char_eqb y c then find_end c rest'' (copy + 2) (quotes + 1)
            else (copy + 1, quotes)
        | [] => (copy + 1, quotes)
        end
      else find_end c rest' (copy + 1) quotes
  end.

(** Second loop of [parse_string]: [rest] is the view from [begin] on. *)
Fixpoint read_body (c : ascii) (rest : text) (begin : nat) (target : text) : text * nat :=
  match rest with
  | [] => (target, begin)
  | cur :: rest' =>
      if char_eqb cur c then
        match rest' with
        | y :: rest'' =>
            if char_eqb y c then read_body c rest'' (begin + 2) (target ++ [cur])
            else (target, begin + 1)
        | [] => (target, begin + 1)
        end
      else read_body c rest' (begin + 1) (target ++ [cur])
  end.

Definition deref (view : text) (it : nat) : outcome ascii :=
  match nth_error view it with
  | Some c => Ok c
  | None => Undefined
  end.

Definition parse_string (view : text) (begin : nat) : outcome (value * nat) :=
  c <- deref view begin ;;
  let '(copy, quotes) := find_end c (skipn (begin + 1) view) (begin + 1) 0 in
  let len := (Z.of_nat copy - Z.of_nat begin - 2)%Z in
  _ <- reserve (len - Z.of_nat quotes)%Z ;;
  let '(target, begin') := read_body c (skipn (begin + 1) view) (begin + 1) [] in
  Ok (value_string target, begin').

Definition parse_boolean (view : text) (begin : nat) : outcome (value * nat) :=
  c <- deref view begin ;;
  if char_eqb c "t" || char_eqb c "T"
  then Ok (value_bool true, begin + 4)
  else Ok (value_bool false, begin + 5).

Section Header.
Variable stof : text -> stof_result.
Variable ostream_float : float -> text.

(** *** [to_string] *)

Fixpoint to_string (escape : bool) (v : value) {struct v} : outcome text :=
  match v with
  | Value ty p =>
    match ty with
    | value_type.Nil => Ok (str "nil")
    | value_type.Array =>
        match p with
        | vector l =>
            s <- array_items (to_string escape) l false ["["%char] ;;
            Ok (s ++ ["]"%char])
        | _ => Throw bad_variant_access
        end
    | value_type.Boolean =>
        b <- get_bool p ;; Ok (if b then str "true" else str "false")
    | value_type.Scalar =>
        f <- get_float p ;; Ok (ostream_float f)
    | value_type.String =>
        s <- get_string p ;;
        if escape then Ok ([dquote] ++ escape_quotes s ++ [dquote]) else Ok s
    end
  end.

(** *** [parse_scalar] *)

Definition parse_scalar (view : text) (begin : nat) : outcome (value * nat) :=
  sub <- substr view begin ;;
  match stof (c_str sub) with
  | stof_ok f size => Ok (value_float f, begin + Pos.to_nat size)
  | stof_invalid_argument => Throw invalid_argument
  | stof_out_of_range => Throw out_of_range
  end.

(** *** [parse_] and the loop of [parse_array]

    Both are recursive through each other and through [goto]; [fuel]
    bounds the number of jumps and calls, and [None] is the answer when it
    runs out.  [parse_array_loop] is [parse_array] from its label
    [parse_start] on, with [values] as built so far. *)

Fixpoint parse_ (fuel : nat) (view : text) (begin : nat) {struct fuel}
  : option (outcome (value * nat)) :=
  match fuel with
  | O => None
  | S fuel' =>
    match nth_error view begin with
    | None => Some Undefined
    | Some c =>
      match dispatch c with
      | case_array => parse_array_loop fuel' view (begin + 1) []
      | case_string => Some (parse_string view begin)
      | case_boolean => Some (parse_boolean view begin)
      | case_scalar => Some (parse_scalar view begin)
      | case_default =>
          if negb (begin + 1 =? length view) then parse_ fuel' view (begin + 1)
          else Some (Ok (value_nil, begin + 1))
      end
    end
  end
with parse_array_loop (fuel : nat) (view : text) (begin : nat) (values : list value)
  {struct fuel} : option (outcome (value * nat)) :=
  match fuel with
  | O => None
  | S fuel' =>
    match nth_error view begin with
    | None => Some Undefined
    | Some c =>
      if char_eqb c "]" then Some (Ok (value_array values, begin + 1))
      else
        match parse_ fuel' view begin with
        | Some (Ok (v, begin')) =>
            if negb (begin' =? length view)
            then parse_array_loop fuel' view begin' (values ++ [v])
            else Some (Ok (value_nil, begin'))
        | Some (Throw e) => Some (Throw e)
        | Some Undefined => Some Undefined
        | None => None
        end
    end
  end.

Definition parse_array (fuel : nat) (view : text) (begin : nat)
  : option (outcome (value * nat)) :=
  parse_array_loop fuel view (begin + 1) [].

(** Jumps and calls alternate with steps of the cursor, so twice the
    length of the view, and one, is fuel enough ([parse_fuel_enough]). *)
Definition parse_fuel (view : text) : nat := 2 * length view + 1.

(** *** [parse]

    The branch for [None] is never taken ([parse_fuel_enough]). *)

Definition parse (view : text) : outcome value :=
  match view with
  | [] => Ok value_nil
  | _ =>
    match parse_ (parse_fuel view) view 0 with
    | Some r => '(v, _) <- r ;; Ok v
    | None => Undefined
    end
  end.

End Header.

(** ** A reference host

    [Host.stof] follows the subject-sequence grammar of C's [strtof] in the
    "C" locale (white space, sign, decimal or hexadecimal significand with an
    optional exponent, INF, INFINITY, NAN, NAN(...)), rounds to nearest even,
    and reports [std::stof]'s two exceptions: no conversion, and a result
    out of range (overflow, or a non-zero literal that rounds to zero or
    inexactly to a subnormal).  [Host.ostream_float] is the "%g" conversion
    with precision 6 that an [ostream] applies by default. *)

Module Host.
Local Open Scope Z_scope.

Definition is_space (c : ascii) : bool :=
  let n := nat_of_ascii c in (n =? 32)%nat || ((9 <=? n)%nat && (n <=? 13)%nat).

Definition digit_val (c : ascii) : option Z :=
  let n := Z.of_nat (nat_of_ascii c) in
  if (48 <=? n) && (n <=? 57) then Some (n - 48) else None.

Definition hex_val (c : ascii) : option Z :=
  let n := Z.of_nat (nat_of_ascii c) in
  if (48 <=? n) && (n <=? 57) then Some (n - 48)
  else if (65 <=? n) && (n <=? 70) then Some (n - 55)
  else if (97 <=? n) && (n <=? 102) then Some (n - 87)
  else None.

Fixpoint skip_spaces (s : text) : nat * text :=
  match s with
  | c :: s' => if is_space c then let '(n, r) := skip_spaces s' in (S n, r) else (O, s)
  | [] => (O, s)
  end.

Definition read_sign (s : text) : bool * nat * text :=
  match s with
  | c :: s' =>
      if char_eqb c "-" then (true, 1%nat, s')
      else if char_eqb c "+" then (false, 1%nat, s')
      else (false, 0%nat, s)
  | [] => (false, 0%nat, s)
  end.

(** The longest run of digits: its value on top of [acc], its length on
    top of [n], and what follows. *)
Fixpoint read_digits (val : ascii -> option Z) (base : Z) (s : text) (acc : Z) (n : nat)
  : Z * nat * text :=
  match s with
  | c :: s' =>
      match val c with
      | Some d => read_digits val base s' (acc * base + d) (S n)
      | None => (acc, n, s)
      end
  | [] => (acc, n, s)
  end.

(** Digits with an optional radix point, at least one digit: the digits
    as one integer, the number of digits after the point, the number of
    characters, and what follows. *)
Definition read_significand (val : ascii -> option Z) (base : Z) (s : text)
  : option (Z * nat * nat * text) :=
  let '(i, ni, r1) := read_digits val base s 0 0%nat in
  match r1 with
  | c :: r2 =>
      if char_eqb c "." then
        let '(m, nf, r3) := read_digits val base r2 i 0%nat in
        if (ni + nf =? 0)%nat then None else Some (m, nf, (ni + 1 + nf)%nat, r3)
      else if (ni =? 0)%nat then None else Some (i, 0%nat, ni, r1)
  | [] => if (ni =? 0)%nat then None else Some (i, 0%nat, ni, r1)
  end.

(** An exponent part introduced by [m1] or [m2]; absent or without digits
    it contributes nothing. *)
Definition read_exponent (m1 m2 : ascii) (s : text) : Z * nat :=
  match s with
  | c :: s1 =>
      if char_eqb c m1 || char_eqb c m2 then
        let '(neg, ns, s2) := read_sign s1 in
        let '(e, ne, _) := read_digits digit_val 10 s2 0 0%nat in
        if (ne =? 0)%nat then (0, 0%nat)
        else ((if neg then - e else e), (1 + ns + ne)%nat)
      else (0, 0%nat)
  | [] => (0, 0%nat)
  end.

(** [p] is a prefix of [s] up to the case of letters. *)
Fixpoint prefix_ci (p s : text) : option text :=
  match p, s with
  | [], _ => Some s
  | a :: p', b :: s' => if char_eqb a (tolower b) then prefix_ci p' s' else None
  | _ :: _, [] => None
  end.

Definition is_nchar (c : ascii) : bool :=
  let n := nat_of_ascii c in
  ((48 <=? n)%nat && (n <=? 57)%nat) || ((65 <=? n)%nat && (n <=? 90)%nat)
  || ((97 <=? n)%nat && (n <=? 122)%nat) || (n =? 95)%nat.

Fixpoint nchar_seq (s : text) : nat * text :=
  match s with
  | c :: s' => if is_nchar c then let '(n, r) := nchar_seq s' in (S n, r) else (O, s)
  | [] => (O, s)
  end.

(** [num / den], rounded to binary32. *)
Definition round_ratio (s : bool) (num den : Z) : float :=
  let '(q, e, l) := SFdiv_core_binary F32.prec F32.emax num 0 den 0 in
  binary_round_aux F32.prec F32.emax s q e l.

Definition exact (m : positive) (e : Z) (num den : Z) : bool :=
  if 0 <=? e then Zpos m * 2 ^ e * den =? num else Zpos m * den =? num * 2 ^ (- e).

Definition subnormal (m : positive) : bool := Zpos (digits2_pos m) <? F32.prec.

(** The value [m * base^e] of a literal with sign [s], of [size] characters. *)
Definition convert (s : bool) (m base e : Z) (size : nat) : stof_result :=
  if m =? 0 then stof_ok (S754_zero s) (Pos.of_nat size) else
  let num := if 0 <=? e then m * base ^ e else m in
  let den := if 0 <=? e then 1 else base ^ (- e) in
  match round_ratio s num den with
  | S754_finite s' m' e' =>
      if subnormal m' && negb (exact m' e' num den) then stof_out_of_range
      else stof_ok (S754_finite s' m' e') (Pos.of_nat size)
  | _ => stof_out_of_range
  end.

Definition hex_literal (s : text) : option (Z * nat * nat * text) :=
  match s with
  | z :: x :: s' =>
      if char_eqb z "0" && char_eqb (tolower x) "x"
      then read_significand hex_val 16 s' else None
  | _ => None
  end.

Definition stof (s : text) : stof_result :=
  let '(nsp, s0) := skip_spaces s in
  let '(neg, nsg, s1) := read_sign s0 in
  let pre := (nsp + nsg)%nat in
  match hex_literal s1 with
  | Some (m, nf, n, rest) =>
      let '(e, ne) := read_exponent "p" "P" rest in
      convert neg m 2 (e - 4 * Z.of_nat nf) (pre + 2 + n + ne)
  | None =>
    match read_significand digit_val 10 s1 with
    | Some (m, nf, n, rest) =>
        let '(e, ne) := read_exponent "e" "E" rest in
        convert neg m 10 (e - Z.of_nat nf) (pre + n + ne)
    | None =>
      match prefix_ci (str "inf") s1 with
      | Some r =>
          let more := match prefix_ci (str "inity") r with Some _ => 5%nat | None => 0%nat end in
          stof_ok (S754_infinity neg) (Pos.of_nat (pre + 3 + more))
      | None =>
        match prefix_ci (str "nan") s1 with
        | Some r =>
            let more :=
              match r with
              | o :: r1 =>
                  if char_eqb o "(" then
                    match nchar_seq r1 with
                    | (k, c :: _) => if char_eqb c ")" then (k + 2)%nat else 0%nat
                    | (_, []) => 0%nat
                    end
                  else 0%nat
              | [] => 0%nat
              end in
            stof_ok S754_nan (Pos.of_nat (pre + 3 + more))
        | None => stof_invalid_argument
        end
      end
    end
  end.

(** *** Formatting *)

Definition ge_pow10 (num den X : Z) : bool :=
  if 0 <=? X then den * 10 ^ X <=? num else den <=? num * 10 ^ (- X).

(** The decimal exponent of [num / den]: the largest [X] with
    [10^X <= num / den], looked for from [X] downwards. *)
Fixpoint find_exp (fuel : nat) (num den X : Z) : Z :=
  match fuel with
  | O => X
  | S f => if ge_pow10 num den X then X else find_exp f num den (X - 1)
  end.

Definition div_half_even (a b : Z) : Z :=
  let q := a / b in
  match (2 * (a mod b) ?= b) with
  | Lt => q
  | Gt => q + 1
  | Eq => if Z.even q then q else q + 1
  end.

(** [num / den / 10^(X-5)], rounded to an integer. *)
Definition six_digits (num den X : Z) : Z :=
  let k := 5 - X in
  if 0 <=? k then div_half_even (num * 10 ^ k) den
  else div_half_even num (den * 10 ^ (- k)).

Definition dec_text (n : Z) : text := str (NilZero.string_of_uint (N.to_uint (Z.to_N n))).

Fixpoint drop_zeros (s : text) : text :=
  match s with
  | c :: s' => if char_eqb c "0" then drop_zeros s' else s
  | [] => []
  end.

Definition strip_zeros (s : text) : text := rev (drop_zeros (rev s)).

Definition with_point (int frac : text) : text :=
  match strip_zeros frac with
  | [] => int
  | f => int ++ "."%char :: f
  end.

Definition format_g (num den : Z) : text :=
  let X0 := find_exp 100 num den 40 in
  let D0 := six_digits num den X0 in
  let '(D, X) := if D0 =? 10 ^ 6 then (10 ^ 5, X0 + 1) else (D0, X0) in
  let ds := dec_text D in
  if (-4 <=? X) && (X <? 6) then
    if 0 <=? X then with_point (firstn (Z.to_nat (X + 1)) ds) (skipn (Z.to_nat (X + 1)) ds)
    else with_point ["0"%char] (repeat "0"%char (Z.to_nat (- X - 1)) ++ ds)
  else
    let e := dec_text (Z.abs X) in
    with_point (firstn 1 ds) (skipn 1 ds)
      ++ "e"%char :: (if X <? 0 then "-"%char else "+"%char)
      :: (if Z.abs X <? 10 then "0"%char :: e else e).

Definition ostream_float (f : float) : text :=
  match f with
  | S754_zero s => if s then str "-0" else str "0"
  | S754_infinity s => if s then str "-inf" else str "inf"
  | S754_nan => str "nan"
  | S754_finite s m e =>
      let num := if 0 <=? e then Zpos m * 2 ^ e else Zpos m in
      let den := if 0 <=? e then 1 else 2 ^ (- e) in
      (if s then ["-"%char] else []) ++ format_g num den
  end.
End Host.

(** ** Well-formed objects: the tag names the active alternative *)

Fixpoint wf (v : value) : bool :=
  match v with
  | Value value_type.Nil monostate => true
  | Value value_type.Array (vector l) => forallb wf l
  | Value value_type.Boolean (bool_ _) => true
  | Value value_type.Scalar (float_ _) => true
  | Value value_type.String (string_ _) => true
  | _ => false
  end.

(** The float payload of an object, for statements about scalars. *)
Definition payload (v : value) : float :=
  match m_variant v with float_ f => f | _ => F32.zero end.

(** Induction on values that reaches the elements of arrays. *)
Section value_induction.
Variable P : value -> Prop.
Hypothesis P_monostate : forall ty, P (Value ty monostate).
Hypothesis P_vector : forall ty l, Forall P l -> P (Value ty (vector l)).
Hypothesis P_string : forall ty s, P (Value ty (string_ s)).
Hypothesis P_bool : forall ty b, P (Value ty (bool_ b)).
Hypothesis P_float : forall ty f, P (Value ty (float_ f)).

Fixpoint value_rect' (v : value) : P v :=
  match v with
  | Value ty monostate => P_monostate ty
  | Value ty (vector l) =>
      P_vector ty l
        ((fix all (l : list value) : Forall P l :=
            match l with
            | [] => Forall_nil P
            | x :: l' => Forall_cons x (value_rect' x) (all l')
            end) l)
  | Value ty (string_ s) => P_string ty s
  | Value ty (bool_ b) => P_bool ty b
  | Value ty (float_ f) => P_float ty f
  end.
End value_induction.

(** ** Some literals *)

Definition one : float := F32.of_Z 1.
Definition five : float := F32.of_Z 5.

(** ** Vocabulary of the statements *)

(** The [double] literal [0.1], and the [float] it narrows to, which is
    the larger of the two. *)
Definition tenth_double : double := F64.of_bits 3602879701896397 (-55).
Definition tenth : float := float_of_double tenth_double.

(** Positive infinity, the result of 1 / 0. *)
Definition infinity : float := S754_infinity false.

Definition count_dquote (s : text) : nat :=
  length (filter (fun c => char_eqb c dquote) s).

(** What may follow a serialized element: nothing, a comma, a bracket. *)
Definition follows_ok (post : text) : Prop :=
  match post with
  | [] => True
  | c :: _ => c = ","%char \/ c = "]"%char
  end.

(** The text of the elements of an array as [to_string] joins them. *)
Fixpoint items_text (ts : list text) (flag : bool) : text :=
  match ts with
  | [] => []
  | t :: ts' => (if flag then [","%char] else []) ++ t ++ items_text ts' true
  end.

Section RoundTripDefs.
Variable stof : text -> stof_result.
Variable ostream_float : float -> text.

(** The text of [f] starts with a character the parser takes for a
    number, and the host parser reads exactly that text back, to a float
    that compares equal to [f], whatever element separator follows. *)
Definition scalar_roundtrips (f : float) : Prop :=
  (exists c r, ostream_float f = c :: r /\ dispatch c = case_scalar) /\
  forall post, follows_ok post ->
    exists f', stof (c_str (ostream_float f ++ post))
               = stof_ok f' (Pos.of_nat (length (ostream_float f)))
               /\ F32.eqb f' f = true.

(** Values built from Boolean, String, round-tripping Scalar, and
    Array of those. *)
#[warnings="-register-all"]
Inductive rt : value -> Prop :=
| rt_bool b : rt (value_bool b)
| rt_string s : rt (value_string s)
| rt_scalar f : scalar_roundtrips f -> rt (value_float f)
| rt_array l : Forall rt l -> rt (value_array l).

Definition roundtrippable (v : value) : Prop := v = value_nil \/ rt v.

(** [x] is written as [t]; [t] starts with a dispatching character, and
    parsed back anywhere in front of a separator it gives a value equal
    to [x] and leaves the cursor behind [t]. *)
Definition reads_back (x : value) (t : text) : Prop :=
  to_string ostream_float true x = Ok t /\
  (exists c r, t = c :: r /\ dispatch c <> case_default) /\
  forall pre post, follows_ok post ->
    exists fuel x',
      parse_ stof fuel (pre ++ t ++ post) (length pre)
      = Some (Ok (x', length pre + length t))
      /\ equals x' x = Ok true.

End RoundTripDefs.

(** 3.5, whose text "3.5" the reference host reads back. *)
Definition three_half : float := F32.of_bits 7 (-1).

Definition sample : value :=
  value_array [ value_bool true;
                value_string (str "say " ++ [dquote] ++ str "hi" ++ [dquote]);
                value_float three_half;
                value_array [];
                value_array [value_bool false; value_string []] ].

(** ** The free templates [is<T>] and [get<T>] *)

(** The template arguments the header specializes, and any other type. *)
Inductive type_arg : Type := T_float | T_string | T_vector | T_bool | T_void | T_other.

Definition is_ (T : type_arg) (val : value) : bool :=
  match T with
  | T_float => is_scalar val
  | T_string => is_string val
  | T_vector => is_array val
  | T_bool => is_boolean val
  | T_void => is_nil val
  | T_other => false
  end.

Definition get_float_ (val : value) : outcome float := operator_float_const val.
Definition get_string_ (val : value) : outcome text := operator_string_const val.
Definition get_vector_ (val : value) : outcome (list value) := operator_vector_const val.
Definition get_bool_ (val : value) : outcome bool := operator_bool_const val.

(** ** More vocabulary *)

(** No NaN is stored anywhere in the value. *)
Fixpoint nan_free (v : value) : bool :=
  match v with
  | Value _ (float_ S754_nan) => false
  | Value _ (vector l) => forallb nan_free l
  | _ => true
  end.

(** No array inside the value, at any depth, has a Nil among its elements. *)
Fixpoint no_nil_element (v : value) : bool :=
  match v with
  | Value _ (vector l) => forallb (fun x => negb (is_nil x) && no_nil_element x) l
  | _ => true
  end.

(** [s] with every occurrence of [q] written twice. *)
Fixpoint double_delim (q : ascii) (s : text) : text :=
  match s with
  | [] => []
  | c :: s' => if char_eqb c q then c :: q :: double_delim q s'
               else c :: double_delim q s'
  end.

(** An answer of [parse_] with its cursor moved [n] characters on. *)
Definition shift_cursor (n : nat) (r : option (outcome (value * nat)))
  : option (outcome (value * nat)) :=
  match r with
  | Some (Ok (v, begin)) => Some (Ok (v, n + begin))
  | other => other
  end.

(** The characters [parse_] steps over. *)
Definition unrecognized (c : ascii) : Prop := dispatch c = case_default.

(** Every Scalar stored in the value, at any depth, satisfies [P]. *)
Fixpoint all_scalars (P : float -> Prop) (v : value) : Prop :=
  match v with
  | Value _ (float_ f) => P f
  | Value _ (vector l) =>
      (fix all (l : list value) : Prop :=
         match l with
         | [] => True
         | x :: l' => all_scalars P x /\ all l'
         end) l
  | _ => True
  end.

(** The float is a NaN. *)
Definition is_nan (f : float) : bool := match f with S754_nan => true | _ => false end.

(** * Properties *)

(** ** Outcomes and small facts *)

Lemma bind_Ok {A B} (c : outcome A) (k : A -> outcome B) (b : B) :
  bind c k = Ok b -> exists a, c = Ok a /\ k a = Ok b.
Proof. destruct c; simpl; intro H; try discriminate H. eauto. Qed.

Lemma char_eqb_refl c : char_eqb c c = true.
Proof. apply Ascii.eqb_refl. Qed.

Lemma char_eqb_eq a b : char_eqb a b = true <-> a = b.
Proof. apply Ascii.eqb_eq. Qed.

Lemma char_eqb_neq a b : char_eqb a b = false <-> a <> b.
Proof. apply Ascii.eqb_neq. Qed.

Lemma text_eq_refl (a : text) : (if list_eq_dec ascii_dec a a then true else false) = true.
Proof. destruct (list_eq_dec ascii_dec a a); congruence. Qed.

(** ** The mutable accessors and the tag *)

(** C1 — the mutable [bool] accessor on [Scalar(5.0)] returns [false] and
    stores a [bool] payload, but leaves the tag alone: afterwards
    [is_scalar] is still true and [is_boolean] still false, and the object
    is no longer the one [value(false)] builds.  Serializing it throws. *)
Theorem as_bool_on_scalar_keeps_tag :
  let v := value_float five in
  exists v',
    operator_bool v = Ok (false, v') /\
    v' = Value value_type.Scalar (bool_ false) /\
    is_scalar v' = true /\
    is_boolean v' = false /\
    v' <> value_bool false /\
    forall ostream_float, to_string ostream_float true v' = Throw bad_variant_access.
Proof.
  eexists. split; [reflexivity|].
  repeat split; try reflexivity. discriminate.
Qed.

(** C2 — one public call breaks the agreement of tag and payload: after the
    mutable [bool] conversion of [Scalar(5.0)] the tag says Scalar while a
    [bool] is stored, and the const [float] accessor, which trusts the tag,
    throws instead of answering from the active alternative. *)
Theorem mutable_accessor_breaks_tag_invariant :
  wf (value_float five) = true /\
  exists v',
    operator_bool (value_float five) = Ok (false, v') /\
    wf v' = false /\
    m_type v' = value_type.Scalar /\ m_variant v' = bool_ false /\
    operator_float_const v' = Throw bad_variant_access /\
    operator_bool_const v' = Ok false.
Proof.
  split; [reflexivity|]. eexists. split; [reflexivity|]. repeat split; reflexivity.
Qed.

(** No mutable accessor ever assigns the tag. *)
Lemma mutable_accessors_keep_tag (v v' : value) :
  (forall f, as_float v = Ok (f, v') -> m_type v' = m_type v) /\
  (forall b, as_bool v = Ok (b, v') -> m_type v' = m_type v) /\
  (forall s, as_string v = Ok (s, v') -> m_type v' = m_type v) /\
  (forall l, as_array v = Ok (l, v') -> m_type v' = m_type v).
Proof.
  unfold as_float, as_bool, as_string, as_array.
  repeat split; intros x H; apply bind_Ok in H as (y & _ & H); injection H as _ <-;
    destruct (negb _); reflexivity.
Qed.

(** On an object of another type, the mutable [bool] accessor answers
    [false] and leaves an object that is not well formed. *)
Lemma as_bool_mismatch (v : value) :
  is_boolean v = false ->
  exists v', as_bool v = Ok (false, v') /\ wf v' = false /\ m_type v' = m_type v.
Proof.
  intros Hb. unfold as_bool. unfold is_boolean in Hb. rewrite Hb. simpl.
  eexists. split; [reflexivity|]. split; [|reflexivity].
  destruct v as [ty p]. simpl in *. destruct ty; try reflexivity. discriminate Hb.
Qed.

(** What the constructors build is well formed. *)
Lemma wf_constructors :
  wf value_nil = true /\
  (forall d, wf (value_double d) = true) /\
  (forall f, wf (value_float f) = true) /\
  (forall z, wf (value_int z) = true) /\
  (forall b, wf (value_bool b) = true) /\
  (forall s, wf (value_string s) = true) /\
  (forall l, forallb wf l = true -> wf (value_array l) = true).
Proof. repeat split; auto. Qed.

(** A well-formed scalar is the object [value(float)] builds. *)
Lemma wf_scalar v : wf v = true -> is_scalar v = true -> v = value_float (payload v).
Proof.
  destruct v as [ty p]; unfold is_scalar; simpl.
  destruct ty; simpl; try discriminate; destruct p; simpl; try discriminate; reflexivity.
Qed.

(** What the arithmetic operators return is well formed. *)
Lemma op_arith_wf f a b v : op_arith f a b = Ok v -> wf v = true.
Proof.
  unfold op_arith. destruct (_ || _).
  - intro H. injection H as <-. reflexivity.
  - destruct (as_float_const a); try discriminate. simpl.
    destruct (as_float_const b); try discriminate. simpl.
    intro H. injection H as <-. reflexivity.
Qed.

(** ** Equality *)

Lemma std_equal_true_iff {A B} (pred : A -> B -> outcome bool) a b :
  std_equal pred a b = Ok true <-> Forall2 (fun x y => pred x y = Ok true) a b.
Proof.
  unfold std_equal. split.
  - destruct (length a =? length b) eqn:E; simpl; [|discriminate].
    apply Nat.eqb_eq in E. revert b E.
    induction a as [|x a IH]; intros [|y b] E; simpl in *; try discriminate; auto.
    intro H. apply bind_Ok in H as ([] & Hp & Hr); [|discriminate].
    constructor; auto.
  - intro H. rewrite (proj2 (Nat.eqb_eq _ _) (Forall2_length H)). simpl.
    induction H; simpl; auto. rewrite H. simpl. assumption.
Qed.

Lemma equals_array a b :
  equals (value_array a) (value_array b) = std_equal equals a b.
Proof. reflexivity. Qed.

(** [std::equal] with a predicate that cannot throw. *)
Lemma std_equal_pure {A B} (p : A -> B -> bool) a b :
  std_equal (fun x y => Ok (p x y)) a b
  = Ok ((length a =? length b) && forallb (fun xy => p (fst xy) (snd xy)) (combine a b)).
Proof.
  unfold std_equal. destruct (length a =? length b) eqn:E; simpl; [|reflexivity].
  apply Nat.eqb_eq in E. revert b E.
  induction a as [|x a IH]; intros [|y b] E; simpl in *; try discriminate; auto.
  destruct (p x y); simpl; auto.
Qed.

Lemma fold_eq_iff_map (a b : text) :
  (length a =? length b)
  && forallb (fun xy => char_eqb (tolower (fst xy)) (tolower (snd xy))) (combine a b) = true
  <-> map tolower a = map tolower b.
Proof.
  revert b. induction a as [|x a IH]; intros [|y b]; simpl; try (split; intro; discriminate).
  - split; reflexivity.
  - specialize (IH b). rewrite andb_true_iff in *. simpl.
    rewrite andb_true_iff, char_eqb_eq. split.
    + intros (E & Hc & Hr). f_equal; [assumption|]. apply IH. auto.
    + intro H. injection H as Hc Hr. apply IH in Hr. tauto.
Qed.

(** C5 — [equals_invariant] folds the case of the characters of two String
    payloads before comparing them, and on two Arrays it is [equals] itself:
    the elements are compared with the strict form.  "ABC" and "abc" are
    equal under it, the arrays holding them are not. *)
Theorem equals_invariant_strings_folded_arrays_strict :
  (forall a b : text,
      equals_invariant (value_string a) (value_string b)
      = std_equal (fun l r => Ok (char_eqb (tolower l) (tolower r))) a b) /\
  (forall a b : text,
      equals_invariant (value_string a) (value_string b) = Ok true
      <-> map tolower a = map tolower b) /\
  (forall a b : list value,
      equals_invariant (value_array a) (value_array b)
      = equals (value_array a) (value_array b)) /\
  (forall a b : list value,
      equals_invariant (value_array a) (value_array b) = Ok true
      <-> Forall2 (fun x y => equals x y = Ok true) a b) /\
  equals_invariant (value_string (str "ABC")) (value_string (str "abc")) = Ok true /\
  equals_invariant (value_array [value_string (str "ABC")])
                   (value_array [value_string (str "abc")]) = Ok false.
Proof.
  split; [reflexivity|]. split.
  { intros a b. change (equals_invariant (value_string a) (value_string b))
      with (std_equal (fun l r => Ok (char_eqb (tolower l) (tolower r))) a b).
    rewrite std_equal_pure. split.
    - intro H. injection H as H. now apply fold_eq_iff_map.
    - intro H. f_equal. now apply fold_eq_iff_map. }
  split; [reflexivity|]. split.
  { intros a b. change (equals_invariant (value_array a) (value_array b))
      with (std_equal equals a b). apply std_equal_true_iff. }
  split; reflexivity.
Qed.

(** ** Arithmetic *)

(** On well-formed operands each of [+], [-], [*], [/] returns the Scalar
    of the binary32 result of the two payloads when both operands are
    Scalar, and [Boolean(false)] otherwise; it does not throw there. *)
Theorem arithmetic_scalar_or_false (a b : value) :
  wf a = true -> wf b = true ->
  let both := is_scalar a && is_scalar b in
  op_add a b = Ok (if both then value_float (F32.add (payload a) (payload b)) else value_bool false) /\
  op_sub a b = Ok (if both then value_float (F32.sub (payload a) (payload b)) else value_bool false) /\
  op_mul a b = Ok (if both then value_float (F32.mul (payload a) (payload b)) else value_bool false) /\
  op_div a b = Ok (if both then value_float (F32.div (payload a) (payload b)) else value_bool false).
Proof.
  intros Ha Hb both. subst both.
  destruct (is_scalar a) eqn:Sa; [destruct (is_scalar b) eqn:Sb|]; simpl.
  - rewrite (wf_scalar a Ha Sa), (wf_scalar b Hb Sb). repeat split; reflexivity.
  - unfold op_add, op_sub, op_mul, op_div, op_arith. unfold is_scalar in Sa, Sb.
    rewrite Sa, Sb. repeat split; reflexivity.
  - unfold op_add, op_sub, op_mul, op_div, op_arith. unfold is_scalar in Sa.
    rewrite Sa. repeat split; reflexivity.
Qed.

Lemma arithmetic_scalar_or_false_witness :
  op_add (value_float one) (value_float five) = Ok (value_float (F32.of_Z 6)) /\
  op_add (value_string (str "a")) (value_float one) = Ok (value_bool false).
Proof.
  split.
  - apply (arithmetic_scalar_or_false (value_float one) (value_float five)); reflexivity.
  - apply (arithmetic_scalar_or_false (value_string (str "a")) (value_float one)); reflexivity.
Defined.

(** C6 — not every pair of values gets a Scalar or [Boolean(false)] from
    the arithmetic operators.  After the mutable [bool] conversion of
    [Scalar(5.0)] the object still carries the tag Scalar over a [bool]
    payload; both tag tests of an operator pass, the const [float] accessor
    trusts the tag, and each of [+], [-], [*], [/] throws
    [std::bad_variant_access], with that object on either side. *)
Theorem arithmetic_throws_after_mutable_access :
  exists v',
    operator_bool (value_float five) = Ok (false, v') /\
    is_scalar v' = true /\
    op_add v' (value_float one) = Throw bad_variant_access /\
    op_sub v' (value_float one) = Throw bad_variant_access /\
    op_mul v' (value_float one) = Throw bad_variant_access /\
    op_div v' (value_float one) = Throw bad_variant_access /\
    op_add (value_float one) v' = Throw bad_variant_access /\
    op_sub (value_float one) v' = Throw bad_variant_access /\
    op_mul (value_float one) v' = Throw bad_variant_access /\
    op_div (value_float one) v' = Throw bad_variant_access.
Proof. eexists. split; [reflexivity|]. repeat split. Qed.

(** C8 — [equals] on two Arrays is [std::equal] over the two vectors with
    [equals] on each pair: it holds exactly when the lengths agree and every
    pair of elements is equal.  The two parsed examples compare as the
    nesting says. *)
Theorem deep_array_equality :
  (forall a b : list value,
      equals (value_array a) (value_array b) = std_equal equals a b) /\
  (forall a b : list value,
      equals (value_array a) (value_array b) = Ok true
      <-> Forall2 (fun x y => equals x y = Ok true) a b) /\
  parse Host.stof (str "[1,2,[3,4]]")
  = Ok (value_array [value_int 1; value_int 2; value_array [value_int 3; value_int 4]]) /\
  (a <- parse Host.stof (str "[1,2,[3,4]]") ;;
   b <- parse Host.stof (str "[1,2,[3,4]]") ;; equals a b) = Ok true /\
  (a <- parse Host.stof (str "[1,2,[3,5]]") ;;
   b <- parse Host.stof (str "[1,2,[3,4]]") ;; equals a b) = Ok false.
Proof.
  split; [reflexivity|]. split.
  { intros a b. rewrite equals_array. apply std_equal_true_iff. }
  repeat split; vm_compute; reflexivity.
Qed.

(** ** Relational operators *)

(** C10 as stated fails for a [double] literal: with the payload [0.1f]
    and the literal [0.1], [x >= p] is false, since [0.1f] is above [0.1],
    yet [v >= x] is true, because the operator compares [(float)x], which is
    [0.1f] itself. *)
Lemma relational_double_not_exact :
  ~ (op_ge_double (value_float tenth) tenth_double = Ok true
     <-> F64.leb (double_of_float tenth) tenth_double = true).
Proof. intros [H _]. specialize (H eq_refl). vm_compute in H. discriminate H. Qed.

(** C10, amended — on a Scalar with payload [p] each relational operator
    evaluates the comparison with the literal on the left and the payload on
    the right; a [double] literal is first narrowed to [float].  On any
    other receiver the answer is [false]. *)
Theorem relational_operands_reversed (p x : float) (d : double) (ty : value_type.t)
  (q : variant value) :
  (op_lt_float (value_float p) x = Ok (F32.ltb x p) /\
   op_le_float (value_float p) x = Ok (F32.leb x p) /\
   op_gt_float (value_float p) x = Ok (F32.ltb p x) /\
   op_ge_float (value_float p) x = Ok (F32.leb p x)) /\
  (op_lt_double (value_float p) d = Ok (F32.ltb (float_of_double d) p) /\
   op_le_double (value_float p) d = Ok (F32.leb (float_of_double d) p) /\
   op_gt_double (value_float p) d = Ok (F32.ltb p (float_of_double d)) /\
   op_ge_double (value_float p) d = Ok (F32.leb p (float_of_double d))) /\
  (ty <> value_type.Scalar ->
   op_lt_float (Value ty q) x = Ok false /\ op_le_float (Value ty q) x = Ok false /\
   op_gt_float (Value ty q) x = Ok false /\ op_ge_float (Value ty q) x = Ok false /\
   op_lt_double (Value ty q) d = Ok false /\ op_le_double (Value ty q) d = Ok false /\
   op_gt_double (Value ty q) d = Ok false /\ op_ge_double (Value ty q) d = Ok false).
Proof.
  split; [repeat split|]. split; [repeat split|].
  intro H. destruct ty; try (exfalso; apply H; reflexivity); repeat split.
Qed.

Lemma relational_operands_reversed_witness :
  op_lt_float (value_float five) one = Ok true /\
  op_gt_float (value_float five) one = Ok false /\
  op_ge_double (value_float tenth) tenth_double = Ok true /\
  op_lt_float (value_string (str "5")) one = Ok false.
Proof.
  pose proof (relational_operands_reversed five one tenth_double
                value_type.String (string_ (str "5"))) as [Hf [_ Hn]].
  pose proof (relational_operands_reversed tenth one tenth_double
                value_type.String (string_ (str "5"))) as [_ [Hd _]].
  destruct Hf as (H1 & _ & H3 & _). destruct Hd as (_ & _ & _ & H7).
  destruct (Hn ltac:(discriminate)) as (H9 & _).
  repeat split; assumption.
Defined.

(** ** The parser: booleans *)

Lemma nth_error_middle {A} (pre : list A) c post : nth_error (pre ++ c :: post) (length pre) = Some c.
Proof. rewrite nth_error_app2, Nat.sub_diag by lia. reflexivity. Qed.

Lemma parse_boolean_dispatch (stof : text -> stof_result) (fuel : nat) (pre rest : text) :
  parse_ stof (S fuel) (pre ++ "t"%char :: rest) (length pre)
  = Some (Ok (value_bool true, length pre + 4)) /\
  parse_ stof (S fuel) (pre ++ "f"%char :: rest) (length pre)
  = Some (Ok (value_bool false, length pre + 5)).
Proof.
  split.
  - simpl. rewrite nth_error_middle. simpl. unfold parse_boolean, deref.
    rewrite nth_error_middle. reflexivity.
  - simpl. rewrite nth_error_middle. simpl. unfold parse_boolean, deref.
    rewrite nth_error_middle. reflexivity.
Qed.

(** C7 — when the character under the cursor is 't' the parser returns
    [Boolean(true)] with the cursor four further, when it is 'f' it returns
    [Boolean(false)] with the cursor five further, whatever the characters
    after it are; "txyz" parses to [Boolean(true)] with the cursor at 4. *)
Theorem boolean_literal_leniency (stof : text -> stof_result) (fuel : nat) (pre rest : text) :
  parse_ stof (S fuel) (pre ++ "t"%char :: rest) (length pre)
  = Some (Ok (value_bool true, length pre + 4)) /\
  parse_ stof (S fuel) (pre ++ "f"%char :: rest) (length pre)
  = Some (Ok (value_bool false, length pre + 5)) /\
  parse_ stof (S fuel) (str "txyz") 0 = Some (Ok (value_bool true, 4)) /\
  parse stof (str "txyz") = Ok (value_bool true).
Proof.
  destruct (parse_boolean_dispatch stof fuel pre rest) as [Ht Hf].
  repeat split; assumption.
Qed.

(** ** The parser: fuel, progress, totality *)

Section ParserFacts.
Variable stof : text -> stof_result.

Lemma parse__eq fuel view begin :
  parse_ stof (S fuel) view begin =
  match nth_error view begin with
  | None => Some Undefined
  | Some c =>
    match dispatch c with
    | case_array => parse_array_loop stof fuel view (begin + 1) []
    | case_string => Some (parse_string view begin)
    | case_boolean => Some (parse_boolean view begin)
    | case_scalar => Some (parse_scalar stof view begin)
    | case_default =>
        if negb (begin + 1 =? length view) then parse_ stof fuel view (begin + 1)
        else Some (Ok (value_nil, begin + 1))
    end
  end.
Proof. reflexivity. Qed.

Lemma parse_array_loop_eq fuel view begin values :
  parse_array_loop stof (S fuel) view begin values =
  match nth_error view begin with
  | None => Some Undefined
  | Some c =>
    if char_eqb c "]" then Some (Ok (value_array values, begin + 1))
    else
      match parse_ stof fuel view begin with
      | Some (Ok (v, begin')) =>
          if negb (begin' =? length view)
          then parse_array_loop stof fuel view begin' (values ++ [v])
          else Some (Ok (value_nil, begin'))
      | Some (Throw e) => Some (Throw e)
      | Some Undefined => Some Undefined
      | None => None
      end
  end.
Proof. reflexivity. Qed.

(** Induction on a text two characters at a time, as the loops of
    [parse_string] consume it. *)
Lemma text_ind2 (P : text -> Prop) :
  P [] -> (forall x, P [x]) ->
  (forall x y r, P r -> P (y :: r) -> P (x :: y :: r)) ->
  forall s, P s.
Proof.
  intros H0 H1 H2 s. assert (P s /\ forall x, P (x :: s)) as [H _]; [|exact H].
  induction s as [|y r [IH1 IH2]]; split; auto.
Qed.

Lemma read_body_bounds c rest begin target :
  begin <= snd (read_body c rest begin target) <= begin + length rest.
Proof.
  revert begin target. induction rest as [|x|x y r IH1 IH2] using text_ind2;
    intros begin target.
  - simpl. lia.
  - simpl. destruct (char_eqb x c); simpl; lia.
  - change (read_body c (x :: y :: r) begin target) with
      (if char_eqb x c then
         if char_eqb y c then read_body c r (begin + 2) (target ++ [x])
         else (target, begin + 1)
       else read_body c (y :: r) (begin + 1) (target ++ [x])).
    destruct (char_eqb x c).
    + destruct (char_eqb y c).
      * specialize (IH1 (begin + 2) (target ++ [x])). simpl length. lia.
      * simpl. lia.
    + specialize (IH2 (begin + 1) (target ++ [x])). simpl length in *. lia.
Qed.

Lemma find_end_bounds c rest copy quotes :
  quotes <= snd (find_end c rest copy quotes) /\
  copy + 2 * (snd (find_end c rest copy quotes) - quotes) <= fst (find_end c rest copy quotes) /\
  (rest <> [] -> copy + 1 <= fst (find_end c rest copy quotes)).
Proof.
  revert copy quotes. induction rest as [|x|x y r IH1 IH2] using text_ind2;
    intros copy quotes.
  - simpl. split; [lia|]. split; [lia|]. congruence.
  - simpl. destruct (char_eqb x c); simpl; repeat split; intros; lia.
  - change (find_end c (x :: y :: r) copy quotes) with
      (if char_eqb x c then
         if char_eqb y c then find_end c r (copy + 2) (quotes + 1)
         else (copy + 1, quotes)
       else find_end c (y :: r) (copy + 1) quotes).
    destruct (char_eqb x c).
    + destruct (char_eqb y c).
      * destruct (IH1 (copy + 2) (quotes + 1)) as (A & B & _).
        repeat split; intros; lia.
      * simpl. repeat split; intros; lia.
    + destruct (IH2 (copy + 1) quotes) as (A & B & C).
      specialize (C ltac:(discriminate)).
      repeat split; intros; lia.
Qed.

(** [parse_string] returns a String whenever a character follows the
    opening delimiter, and leaves the cursor inside the view or at its
    end. *)
Lemma parse_string_ok view begin c :
  nth_error view begin = Some c -> begin + 1 < length view ->
  exists target begin',
    parse_string view begin = Ok (value_string target, begin') /\
    begin < begin' <= length view.
Proof.
  intros Hc Hlen. unfold parse_string, deref. rewrite Hc. simpl bind.
  pose proof (find_end_bounds c (skipn (begin + 1) view) (begin + 1) 0) as Hf.
  destruct (find_end c (skipn (begin + 1) view) (begin + 1) 0) as [copy quotes].
  simpl in Hf. destruct Hf as (_ & Hq & Hne).
  assert (skipn (begin + 1) view <> []) as Hrest.
  { intro E. apply (f_equal (@length _)) in E. rewrite length_skipn in E. simpl in E. lia. }
  specialize (Hne Hrest).
  unfold reserve.
  destruct (Z.ltb_spec (Z.of_nat copy - Z.of_nat begin - 2 - Z.of_nat quotes) 0); [lia|].
  simpl bind.
  pose proof (read_body_bounds c (skipn (begin + 1) view) (begin + 1) []) as Hb.
  destruct (read_body c (skipn (begin + 1) view) (begin + 1) []) as [target begin'].
  simpl in Hb. rewrite length_skipn in Hb.
  exists target, begin'. split; [reflexivity|lia].
Qed.

(** A delimiter that is the last character of the view: [len] is -1 and
    [reserve] throws. *)
Lemma parse_string_lone_delimiter view begin c :
  nth_error view begin = Some c -> begin + 1 = length view ->
  parse_string view begin = Throw length_error.
Proof.
  intros Hc Hlen. unfold parse_string, deref. rewrite Hc. simpl bind.
  rewrite skipn_all2 by lia. simpl.
  replace (Z.of_nat (begin + 1) - Z.of_nat begin - 2 - 0)%Z with (-1)%Z by lia.
  reflexivity.
Qed.

Lemma parse_string_advance view begin v begin' :
  parse_string view begin = Ok (v, begin') -> begin < begin'.
Proof.
  unfold parse_string, deref. destruct (nth_error view begin) as [c|]; [|discriminate].
  simpl bind.
  destruct (find_end c (skipn (begin + 1) view) (begin + 1) 0) as [copy quotes].
  destruct (reserve _); try discriminate. simpl bind.
  pose proof (read_body_bounds c (skipn (begin + 1) view) (begin + 1) []) as Hb.
  destruct (read_body c (skipn (begin + 1) view) (begin + 1) []) as [target b].
  simpl in Hb. intro H. injection H as _ <-. lia.
Qed.

Lemma parse_boolean_advance view begin v begin' :
  parse_boolean view begin = Ok (v, begin') -> begin < begin'.
Proof.
  unfold parse_boolean, deref. destruct (nth_error view begin) as [c|]; [|discriminate].
  simpl. destruct (_ || _); intro H; injection H as _ <-; lia.
Qed.

Lemma parse_scalar_advance view begin v begin' :
  parse_scalar stof view begin = Ok (v, begin') -> begin < begin'.
Proof.
  unfold parse_scalar. destruct (substr view begin); try discriminate. simpl.
  destruct (stof _); try discriminate. intro H; injection H as _ <-. lia.
Qed.

(** Every return of [parse_] and of the array loop leaves the cursor
    further than it found it. *)
Lemma parse_advance fuel :
  forall view begin v begin',
    (parse_ stof fuel view begin = Some (Ok (v, begin')) -> begin < begin') /\
    (forall values,
        parse_array_loop stof fuel view begin values = Some (Ok (v, begin')) ->
        begin < begin').
Proof.
  induction fuel as [|fuel IH]; intros view begin v begin'.
  - split; [|intro]; discriminate.
  - split.
    + rewrite parse__eq. destruct (nth_error view begin) as [c|]; [|discriminate].
      destruct (dispatch c).
      * intro H. apply (IH view (begin + 1) v begin') in H. lia.
      * intro H. injection H as H. now apply parse_string_advance in H.
      * intro H. injection H as H. now apply parse_boolean_advance in H.
      * intro H. injection H as H. now apply parse_scalar_advance in H.
      * destruct (negb _).
        -- intro H. apply (IH view (begin + 1) v begin') in H. lia.
        -- intro H. injection H as _ <-. lia.
    + intro values. rewrite parse_array_loop_eq.
      destruct (nth_error view begin) as [c|]; [|discriminate].
      destruct (char_eqb c "]").
      * intro H. injection H as _ <-. lia.
      * destruct (parse_ stof fuel view begin) as [[[x b]|e|]|] eqn:E; try discriminate.
        apply (IH view begin x b) in E.
        destruct (negb _).
        -- intro H. apply (IH view b v begin') in H. lia.
        -- intro H. injection H as _ <-. lia.
Qed.

(** More fuel does not change an answer. *)
Lemma parse_fuel_S fuel :
  forall view begin r,
    (parse_ stof fuel view begin = Some r -> parse_ stof (S fuel) view begin = Some r) /\
    (forall values,
        parse_array_loop stof fuel view begin values = Some r ->
        parse_array_loop stof (S fuel) view begin values = Some r).
Proof.
  induction fuel as [|fuel IH]; intros view begin r.
  - split; [|intro]; discriminate.
  - split.
    + rewrite (parse__eq (S fuel)), (parse__eq fuel).
      destruct (nth_error view begin) as [c|]; [|auto].
      destruct (dispatch c); auto.
      * apply IH.
      * destruct (negb _); auto. apply IH.
    + intro values. rewrite (parse_array_loop_eq (S fuel)), (parse_array_loop_eq fuel).
      destruct (nth_error view begin) as [c|]; [|auto].
      destruct (char_eqb c "]"); auto.
      destruct (parse_ stof fuel view begin) as [r0|] eqn:E; [|discriminate].
      apply IH in E. rewrite E.
      destruct r0 as [[x b]|e|]; auto.
      destruct (negb _); auto. apply IH.
Qed.

Lemma parse_fuel_le fuel fuel' view begin r :
  fuel <= fuel' -> parse_ stof fuel view begin = Some r ->
  parse_ stof fuel' view begin = Some r.
Proof.
  induction 1; auto. intro E. apply parse_fuel_S. auto.
Qed.

Lemma parse_array_loop_fuel_le fuel fuel' view begin values r :
  fuel <= fuel' -> parse_array_loop stof fuel view begin values = Some r ->
  parse_array_loop stof fuel' view begin values = Some r.
Proof.
  induction 1; auto. intro E. apply parse_fuel_S. auto.
Qed.

(** Twice the distance to the end of the view, and one (two for the array
    loop), is enough fuel. *)
Lemma parse_fuel_bound fuel :
  forall view begin,
    (2 * (length view - begin) + 1 <= fuel -> parse_ stof fuel view begin <> None) /\
    (forall values,
        2 * (length view - begin) + 2 <= fuel ->
        parse_array_loop stof fuel view begin values <> None).
Proof.
  induction fuel as [|fuel IH]; intros view begin.
  - split; [|intro]; lia.
  - split.
    + intro Hf. rewrite parse__eq.
      destruct (nth_error view begin) as [c|] eqn:Hc; [|discriminate].
      assert (begin < length view) by (apply nth_error_Some; congruence).
      destruct (dispatch c); try discriminate.
      * apply IH. lia.
      * destruct (negb _); [|discriminate]. apply IH. lia.
    + intros values Hf. rewrite parse_array_loop_eq.
      destruct (nth_error view begin) as [c|] eqn:Hc; [|discriminate].
      assert (begin < length view) by (apply nth_error_Some; congruence).
      destruct (char_eqb c "]"); [discriminate|].
      destruct (parse_ stof fuel view begin) as [r0|] eqn:E.
      * destruct r0 as [[x b]|e|]; try discriminate.
        apply (parse_advance fuel view begin x b) in E.
        destruct (negb _); [|discriminate]. apply IH. lia.
      * exfalso. revert E. apply IH. lia.
Qed.

(** The fuel [parse] hands to [parse_] never runs out. *)
Lemma parse_fuel_enough view : parse_ stof (parse_fuel view) view 0 <> None.
Proof. apply parse_fuel_bound. unfold parse_fuel. lia. Qed.

(** An answer found with some fuel is the answer of [parse]. *)
Lemma parse_of_parse_ fuel view r :
  view <> [] -> parse_ stof fuel view 0 = Some r ->
  parse stof view = ('(v, _) <- r ;; Ok v).
Proof.
  intros Hne H. unfold parse. destruct view as [|c view]; [congruence|].
  destruct (parse_ stof (parse_fuel (c :: view)) (c :: view) 0) as [r'|] eqn:E.
  - destruct (Nat.le_ge_cases fuel (parse_fuel (c :: view))) as [L|L].
    + rewrite (parse_fuel_le _ _ _ _ _ L H) in E. congruence.
    + rewrite (parse_fuel_le _ _ _ _ _ L E) in H. congruence.
  - exfalso. revert E. apply parse_fuel_enough.
Qed.

End ParserFacts.

(** ** The parser: what malformed input does *)

Lemma skipn_middle {A} (pre : list A) c post : skipn (length pre + 1) (pre ++ c :: post) = post.
Proof.
  rewrite skipn_app, skipn_all2 by lia.
  replace (length pre + 1 - length pre) with 1 by lia. reflexivity.
Qed.

Lemma skipn_pre {A} (pre post : list A) : skipn (length pre) (pre ++ post) = post.
Proof. rewrite skipn_app, skipn_all, Nat.sub_diag. reflexivity. Qed.

Lemma find_end_no_delimiter c body copy quotes :
  ~ In c body -> find_end c body copy quotes = (copy + length body, quotes).
Proof.
  revert copy. induction body as [|x body IH]; intros copy Hn.
  - simpl. f_equal. lia.
  - assert (char_eqb x c = false) as E.
    { apply char_eqb_neq. intro. apply Hn. left. assumption. }
    simpl. rewrite E, IH by (intro; apply Hn; right; assumption). f_equal. lia.
Qed.

Lemma read_body_no_delimiter c body begin target :
  ~ In c body -> read_body c body begin target = (target ++ body, begin + length body).
Proof.
  revert begin target. induction body as [|x body IH]; intros begin target Hn.
  - simpl. rewrite app_nil_r. f_equal. lia.
  - assert (char_eqb x c = false) as E.
    { apply char_eqb_neq. intro. apply Hn. left. assumption. }
    simpl. rewrite E, IH by (intro; apply Hn; right; assumption).
    rewrite <- app_assoc. simpl. f_equal. lia.
Qed.

Section Malformed.
Variable stof : text -> stof_result.

(** A scalar dispatch character hands the C string at the cursor to
    [std::stof]: its result is the Scalar, its exception is the parser's. *)
Lemma parse_scalar_dispatch fuel pre c rest :
  dispatch c = case_scalar ->
  parse_ stof (S fuel) (pre ++ c :: rest) (length pre) =
  Some match stof (c_str (c :: rest)) with
       | stof_ok f size => Ok (value_float f, length pre + Pos.to_nat size)
       | stof_invalid_argument => Throw invalid_argument
       | stof_out_of_range => Throw out_of_range
       end.
Proof.
  intro Hd. rewrite parse__eq, nth_error_middle, Hd. unfold parse_scalar, substr.
  rewrite length_app. simpl length.
  destruct (Nat.ltb_spec (length pre + S (length rest)) (length pre)); [lia|].
  simpl bind. rewrite skipn_pre. reflexivity.
Qed.

(** An opening delimiter that is never closed: the body is read to the
    end of the view. *)
Lemma parse_string_unterminated pre q body :
  body <> [] -> ~ In q body ->
  parse_string (pre ++ q :: body) (length pre)
  = Ok (value_string body, length (pre ++ q :: body)).
Proof.
  intros Hne Hn. unfold parse_string, deref. rewrite nth_error_middle. simpl bind.
  rewrite skipn_middle, find_end_no_delimiter, read_body_no_delimiter by assumption.
  unfold reserve.
  assert (0 < length body) by (destruct body; [congruence|simpl; lia]).
  destruct (Z.ltb_spec (Z.of_nat (length pre + 1 + length body) - Z.of_nat (length pre) - 2
                        - Z.of_nat 0) 0); [lia|].
  simpl. rewrite length_app. simpl. do 2 f_equal. lia.
Qed.

(** The exit of [parse_array] at the end of the view: when the parse of
    an element leaves the cursor at [end], the loop returns a default
    value, whatever [values] holds and whatever the element was. *)
Lemma parse_array_exhausted fuel view begin c v values :
  nth_error view begin = Some c -> c <> "]"%char ->
  parse_ stof fuel view begin = Some (Ok (v, length view)) ->
  parse_array_loop stof (S fuel) view begin values = Some (Ok (value_nil, length view)).
Proof.
  intros Hc Hn Hp. rewrite parse_array_loop_eq, Hc.
  apply char_eqb_neq in Hn. rewrite Hn, Hp, Nat.eqb_refl. reflexivity.
Qed.

(** The exceptions that leave [parse_] are those of [std::stof] and of
    [reserve]. *)
Lemma parse_throws fuel :
  forall view begin e,
    (parse_ stof fuel view begin = Some (Throw e) ->
     e = invalid_argument \/ e = out_of_range \/ e = length_error) /\
    (forall values,
        parse_array_loop stof fuel view begin values = Some (Throw e) ->
        e = invalid_argument \/ e = out_of_range \/ e = length_error).
Proof.
  induction fuel as [|fuel IH]; intros view begin e.
  - split; [|intro]; discriminate.
  - split.
    + rewrite parse__eq. destruct (nth_error view begin) as [c|]; [|discriminate].
      destruct (dispatch c).
      * apply IH.
      * unfold parse_string, deref. destruct (nth_error view begin); [|discriminate].
        simpl bind. destruct (find_end _ _ _ _) as [copy quotes]. unfold reserve.
        destruct (_ <? _)%Z; simpl bind.
        -- intro H. injection H as <-. auto.
        -- destruct (read_body _ _ _ _). discriminate.
      * unfold parse_boolean, deref. destruct (nth_error view begin); [|discriminate].
        simpl. destruct (_ || _); discriminate.
      * unfold parse_scalar, substr. destruct (_ <? _); simpl bind.
        -- intro H. injection H as <-. auto.
        -- destruct (stof _); intro H; try discriminate; injection H as <-; auto.
      * destruct (negb _); [apply IH|discriminate].
    + intro values. rewrite parse_array_loop_eq.
      destruct (nth_error view begin) as [c|]; [|discriminate].
      destruct (char_eqb c "]"); [discriminate|].
      destruct (parse_ stof fuel view begin) as [[[x b]|e'|]|] eqn:E; try discriminate.
      * destruct (negb _); [apply IH|discriminate].
      * intro H. injection H as <-. apply (IH view begin e'). assumption.
Qed.
(** What [parse_] returns is well formed. *)
Lemma parse_wf fuel :
  forall view begin v begin',
    (parse_ stof fuel view begin = Some (Ok (v, begin')) -> wf v = true) /\
    (forall values,
        forallb wf values = true ->
        parse_array_loop stof fuel view begin values = Some (Ok (v, begin')) ->
        wf v = true).
Proof.
  induction fuel as [|fuel IH]; intros view begin v begin'.
  - split; [|intros ? ?]; discriminate.
  - split.
    + rewrite parse__eq. destruct (nth_error view begin) as [c|]; [|discriminate].
      destruct (dispatch c).
      * apply IH. reflexivity.
      * unfold parse_string, deref. destruct (nth_error view begin); [|discriminate].
        simpl bind. destruct (find_end _ _ _ _) as [copy quotes].
        destruct (reserve _); try discriminate. simpl bind.
        destruct (read_body _ _ _ _). intro H. injection H as <- _. reflexivity.
      * unfold parse_boolean, deref. destruct (nth_error view begin); [|discriminate].
        simpl. destruct (_ || _); intro H; injection H as <- _; reflexivity.
      * unfold parse_scalar. destruct (substr view begin); try discriminate. simpl.
        destruct (stof _); try discriminate. intro H; injection H as <- _. reflexivity.
      * destruct (negb _); [apply IH|]. intro H. injection H as <- _. reflexivity.
    + intros values Hv. rewrite parse_array_loop_eq.
      destruct (nth_error view begin) as [c|]; [|discriminate].
      destruct (char_eqb c "]").
      * intro H. injection H as <- _. exact Hv.
      * destruct (parse_ stof fuel view begin) as [[[x b]|e|]|] eqn:E; try discriminate.
        apply (IH view begin x b) in E.
        destruct (negb _).
        -- apply IH. rewrite forallb_app, Hv. simpl. rewrite E. reflexivity.
        -- intro H. injection H as <- _. reflexivity.
Qed.

Lemma parse_result_wf view v : parse stof view = Ok v -> wf v = true.
Proof.
  unfold parse. destruct view as [|c view].
  - intro H. injection H as <-. reflexivity.
  - destruct (parse_ stof (parse_fuel (c :: view)) (c :: view) 0) as [[[x b]|e|]|] eqn:E;
      try discriminate.
    simpl. intro H. injection H as <-. apply (parse_wf _ _ _ _ _) in E. exact E.
Qed.

End Malformed.

(** C4 as stated fails: "-" is a scalar dispatch character, [std::stof]
    finds no number after it, and its exception leaves [parse]. *)
Lemma parse_minus_throws : parse Host.stof (str "-") = Throw invalid_argument.
Proof. reflexivity. Qed.

(** Two more ways out of [parse] that are not a value: an opening
    delimiter that ends the input asks [reserve] for -1 characters, and a
    boolean token that ends beyond the input inside an array sends the loop
    reading past the end. *)
Lemma parse_lone_delimiter_throws (stof : text -> stof_result) :
  parse stof [dquote] = Throw length_error /\
  parse stof [squote] = Throw length_error.
Proof. split; reflexivity. Qed.

Lemma parse_overshoot_in_array (stof : text -> stof_result) :
  parse stof (str "[t]") = Undefined.
Proof. reflexivity. Qed.

(** C4, amended — [parse] reports nothing of its own, but it is not total.
    A scalar dispatch character hands the text at the cursor to the host
    float parser: when that converts, the result is the Scalar and the
    cursor moves by the characters converted; when it throws, the exception
    is the parser's.  A string whose opening delimiter is followed by at
    least one character always yields a String, and when the delimiter does
    not occur again the body is read to the end of the input.  An array
    whose element ends exactly at the end of the input yields Nil.  No other
    exception than the host parser's two and [reserve]'s leaves [parse]. *)
Theorem parse_malformed_input (stof : text -> stof_result) :
  (forall fuel pre c rest,
      dispatch c = case_scalar ->
      parse_ stof (S fuel) (pre ++ c :: rest) (length pre) =
      Some match stof (c_str (c :: rest)) with
           | stof_ok f size => Ok (value_float f, length pre + Pos.to_nat size)
           | stof_invalid_argument => Throw invalid_argument
           | stof_out_of_range => Throw out_of_range
           end) /\
  (forall view begin c,
      nth_error view begin = Some c -> begin + 1 < length view ->
      exists target begin',
        parse_string view begin = Ok (value_string target, begin') /\
        begin < begin' <= length view) /\
  (forall fuel pre q body,
      dispatch q = case_string -> body <> [] -> ~ In q body ->
      parse_ stof (S fuel) (pre ++ q :: body) (length pre)
      = Some (Ok (value_string body, length (pre ++ q :: body)))) /\
  (forall q body,
      dispatch q = case_string -> body <> [] -> ~ In q body ->
      parse stof (q :: body) = Ok (value_string body)) /\
  (forall fuel view begin c v values,
      nth_error view begin = Some c -> c <> "]"%char ->
      parse_ stof fuel view begin = Some (Ok (v, length view)) ->
      parse_array_loop stof (S fuel) view begin values = Some (Ok (value_nil, length view))) /\
  (forall view e,
      parse stof view = Throw e ->
      e = invalid_argument \/ e = out_of_range \/ e = length_error).
Proof.
  split; [apply parse_scalar_dispatch|].
  split; [apply parse_string_ok|].
  assert (forall fuel pre q body,
             dispatch q = case_string -> body <> [] -> ~ In q body ->
             parse_ stof (S fuel) (pre ++ q :: body) (length pre)
             = Some (Ok (value_string body, length (pre ++ q :: body)))) as Hs.
  { intros fuel pre q body Hd Hne Hn.
    rewrite parse__eq, nth_error_middle, Hd, parse_string_unterminated by assumption.
    reflexivity. }
  split; [exact Hs|].
  split.
  { intros q body Hd Hne Hn.
    rewrite (parse_of_parse_ stof 1 (q :: body) _ ltac:(discriminate)
               (Hs 0 [] q body Hd Hne Hn)).
    reflexivity. }
  split; [apply parse_array_exhausted|].
  intros view e H. unfold parse in H. destruct view as [|c view]; [discriminate|].
  destruct (parse_ stof (parse_fuel (c :: view)) (c :: view) 0) as [[[v b]|e'|]|] eqn:E;
    try discriminate.
  simpl in H. injection H as <-.
  apply (parse_throws stof _ _ _ _) in E. assumption.
Qed.

Lemma parse_malformed_input_witness :
  parse_ Host.stof 1 (str "[12") 1 = Some (Ok (value_int 12, 3)) /\
  parse_ Host.stof 1 (str "x-") 1 = Some (Throw invalid_argument) /\
  parse Host.stof (str "'abc") = Ok (value_string (str "abc")) /\
  parse_array_loop Host.stof 2 (str "[12") 1 [] = Some (Ok (value_nil, 3)).
Proof.
  destruct (parse_malformed_input Host.stof) as (Hscalar & _ & _ & Hstring & Harray & _).
  split; [exact (Hscalar 0 (str "[") "1"%char (str "2") eq_refl)|].
  split; [exact (Hscalar 0 (str "x") "-"%char [] eq_refl)|].
  split.
  - apply (Hstring squote (str "abc")).
    + reflexivity.
    + discriminate.
    + simpl. intros [H|[H|[H|[]]]]; discriminate H.
  - apply (Harray 1 (str "[12") 1 "1"%char (value_int 12) []).
    + reflexivity.
    + discriminate.
    + reflexivity.
Defined.

(** Where the end of the input is met after an element, the array and
    every array around it come back as Nil. *)
Lemma parse_unterminated_array_is_nil :
  parse Host.stof (str "[1,2") = Ok value_nil /\
  parse Host.stof (str "[[1]") = Ok value_nil /\
  parse Host.stof (str "[true") = Ok value_nil.
Proof. repeat split. Qed.

(** C9 — "[" opens an array and ends the input.  [parse_array] steps over
    the bracket and reads the character under the cursor before it has
    compared the cursor with [end]: the read is outside the view. *)
Theorem parse_open_bracket_reads_past_end :
  parse Host.stof (str "[") = Undefined /\
  (forall stof fuel, parse_ stof (S (S fuel)) (str "[") 0 = Some Undefined) /\
  (forall stof fuel, parse_array stof (S fuel) (str "[") 0 = Some Undefined).
Proof. repeat split. Qed.

(** ** Round trip through [to_string] and [parse] *)

(** C3 as stated fails twice.  The array holding one Nil is written
    "[nil]"; the parser has no case for 'n', steps over "nil]" to the end of
    the input, and both the element and the array come back as Nil.  And
    the Scalar infinity is written "inf", a text the float parser reads back
    to infinity, but the parser never hands it over: it steps over 'i' and
    'n' and takes 'f' for a boolean. *)
Lemma roundtrip_fails_on_nil_element_and_infinity :
  (let v := value_array [value_nil] in
   to_string Host.ostream_float true v = Ok (str "[nil]") /\
   parse Host.stof (str "[nil]") = Ok value_nil /\
   (s <- to_string Host.ostream_float true v ;; p <- parse Host.stof s ;; equals p v)
   = Ok false) /\
  (let v := value_float infinity in
   to_string Host.ostream_float true v = Ok (str "inf") /\
   Host.stof (str "inf") = stof_ok infinity 3 /\
   F32.eqb infinity infinity = true /\
   parse Host.stof (str "inf") = Ok (value_bool false) /\
   (s <- to_string Host.ostream_float true v ;; p <- parse Host.stof s ;; equals p v)
   = Ok false).
Proof. repeat split. Qed.

Lemma length_escape_quotes s : length (escape_quotes s) = length s + count_dquote s.
Proof.
  unfold count_dquote. induction s as [|c s IH]; simpl; [reflexivity|].
  destruct (char_eqb c dquote); simpl; lia.
Qed.

Lemma follows_ok_not_dquote post :
  follows_ok post -> match post with [] => True | c :: _ => char_eqb c dquote = false end.
Proof. destruct post as [|c post]; simpl; [auto|]. intros [->| ->]; reflexivity. Qed.

Lemma find_end_escaped body post copy quotes :
  match post with [] => True | c :: _ => char_eqb c dquote = false end ->
  find_end dquote (escape_quotes body ++ dquote :: post) copy quotes
  = (copy + length (escape_quotes body) + 1, quotes + count_dquote body).
Proof.
  intro Hp. unfold count_dquote. revert copy quotes.
  induction body as [|x body IH]; intros copy quotes.
  - simpl. destruct post as [|c post]; [|rewrite Hp]; f_equal; lia.
  - simpl. destruct (char_eqb x dquote) eqn:E.
    + simpl. rewrite E. change (char_eqb dquote dquote) with true. cbv iota.
      rewrite IH. simpl. f_equal; lia.
    + simpl. rewrite E, IH. f_equal; lia.
Qed.

Lemma read_body_escaped body post begin target :
  match post with [] => True | c :: _ => char_eqb c dquote = false end ->
  read_body dquote (escape_quotes body ++ dquote :: post) begin target
  = (target ++ body, begin + length (escape_quotes body) + 1).
Proof.
  intro Hp. revert begin target.
  induction body as [|x body IH]; intros begin target.
  - simpl. rewrite app_nil_r. destruct post as [|c post]; [|rewrite Hp]; f_equal; lia.
  - simpl. destruct (char_eqb x dquote) eqn:E.
    + simpl. rewrite E. change (char_eqb dquote dquote) with true. cbv iota.
      rewrite IH, <- app_assoc. simpl. f_equal; lia.
    + simpl. rewrite E, IH, <- app_assoc. simpl. f_equal; lia.
Qed.

(** The parser undoes the doubling of quotes. *)
Lemma parse_string_escaped pre body post :
  follows_ok post ->
  parse_string (pre ++ dquote :: escape_quotes body ++ dquote :: post) (length pre)
  = Ok (value_string body, length pre + (length (escape_quotes body) + 2)).
Proof.
  intro Hp. apply follows_ok_not_dquote in Hp.
  unfold parse_string, deref. rewrite nth_error_middle. simpl bind.
  rewrite skipn_middle, find_end_escaped, read_body_escaped by assumption.
  rewrite length_escape_quotes. unfold reserve.
  destruct (Z.ltb_spec
              (Z.of_nat (length pre + 1 + (length body + count_dquote body) + 1)
               - Z.of_nat (length pre) - 2 - Z.of_nat (0 + count_dquote body)) 0); [lia|].
  simpl. do 2 f_equal. lia.
Qed.

Lemma array_items_text (item : value -> outcome text) l ts :
  Forall2 (fun x t => item x = Ok t) l ts ->
  forall flag sstream,
    array_items item l flag sstream = Ok (sstream ++ items_text ts flag).
Proof.
  induction 1 as [|x t l ts Hx _ IH]; intros flag sstream; simpl.
  - rewrite app_nil_r. reflexivity.
  - rewrite Hx. simpl. rewrite IH. destruct flag; simpl; rewrite <- !app_assoc; reflexivity.
Qed.

Section RoundTrip.
Variable stof : text -> stof_result.
Variable ostream_float : float -> text.

Local Abbreviation reads := (reads_back stof ostream_float).

Lemma parse_skip_comma fuel pre rest c rest' :
  rest = c :: rest' ->
  parse_ stof (S fuel) (pre ++ ","%char :: rest) (length pre)
  = parse_ stof fuel (pre ++ ","%char :: rest) (length pre + 1).
Proof.
  intros ->. rewrite parse__eq, nth_error_middle.
  change (dispatch ","%char) with case_default. cbv iota.
  rewrite length_app. simpl length.
  destruct (Nat.eqb_spec (length pre + 1) (length pre + S (S (length rest')))); [lia|].
  reflexivity.
Qed.

(** The array loop reads back what [array_items] wrote. *)
Lemma loop_reads_back l ts :
  Forall2 reads l ts ->
  forall flag pre post values,
  exists fuel l',
    parse_array_loop stof fuel (pre ++ items_text ts flag ++ "]"%char :: post)
      (length pre) values
    = Some (Ok (value_array (values ++ l'),
                length pre + length (items_text ts flag) + 1))
    /\ Forall2 (fun x' x => equals x' x = Ok true) l' l.
Proof.
  induction 1 as [|x t l ts Hx _ IH]; intros flag pre post values.
  - exists 1, []. split; [|constructor]. simpl items_text. simpl app.
    rewrite parse_array_loop_eq, nth_error_middle. simpl. rewrite app_nil_r.
    do 3 f_equal. lia.
  - destruct Hx as (_ & (c & r & -> & Hc) & Hparse).
    set (sep := if flag then [","%char] else @nil ascii).
    set (tail := items_text ts true ++ "]"%char :: post).
    assert (follows_ok tail) as Htail.
    { unfold tail. destruct ts; simpl; auto. }
    destruct (Hparse (pre ++ sep) tail Htail) as (f1 & x' & Hp1 & Hx').
    destruct (IH true (pre ++ sep ++ c :: r) post (values ++ [x'])) as (f2 & l' & Hp2 & Hl').
    exists (S (S (f1 + f2))), (x' :: l'). split; [|constructor; assumption].
    assert (pre ++ items_text ((c :: r) :: ts) flag ++ "]"%char :: post
            = (pre ++ sep) ++ (c :: r) ++ tail) as Eview.
    { change (items_text ((c :: r) :: ts) flag)
        with (sep ++ (c :: r) ++ items_text ts true).
      unfold tail. rewrite <- !app_assoc. reflexivity. }
    assert ((pre ++ sep ++ c :: r) ++ items_text ts true ++ "]"%char :: post
            = (pre ++ sep) ++ (c :: r) ++ tail) as Eview2.
    { unfold tail. rewrite <- !app_assoc. reflexivity. }
    rewrite Eview2 in Hp2. rewrite Eview. clear Eview Eview2.
    set (view := (pre ++ sep) ++ (c :: r) ++ tail) in *.
    assert (length view = length pre + length sep + S (length r) + length tail) as Hlen.
    { unfold view. rewrite !length_app. simpl. lia. }
    assert (0 < length tail) as Ht.
    { unfold tail. rewrite length_app. simpl. lia. }
    (* the element, read from the start of the loop *)
    assert (parse_ stof (S f1) view (length pre)
            = Some (Ok (x', length (pre ++ sep) + length (c :: r)))) as Helem.
    { destruct flag; subst sep.
      - unfold view in *. rewrite <- app_assoc in *. simpl app in *.
        rewrite (parse_skip_comma f1 pre _ c (r ++ tail) eq_refl).
        rewrite length_app in Hp1. simpl length in Hp1. rewrite Hp1.
        rewrite length_app. reflexivity.
      - unfold view in *. rewrite app_nil_r in *. apply parse_fuel_S. exact Hp1. }
    rewrite parse_array_loop_eq.
    assert (exists c0, nth_error view (length pre) = Some c0 /\ char_eqb c0 "]" = false)
      as (c0 & Hc0 & Hnot).
    { destruct flag; subst sep; unfold view.
      - exists ","%char. rewrite <- app_assoc. simpl app.
        rewrite nth_error_middle. auto.
      - exists c. rewrite app_nil_r. simpl app. rewrite nth_error_middle. split; auto.
        apply char_eqb_neq. intros ->. apply Hc. reflexivity. }
    rewrite Hc0, Hnot.
    rewrite (parse_fuel_le stof (S f1) (S (f1 + f2)) view _ _ ltac:(lia) Helem).
    rewrite length_app. simpl length.
    destruct (Nat.eqb_spec (length pre + length sep + S (length r)) (length view)); [lia|].
    simpl negb. cbv iota.
    assert (length (pre ++ sep ++ c :: r) = length pre + length sep + S (length r)) as Epos.
    { rewrite !length_app. simpl. lia. }
    rewrite Epos in Hp2.
    rewrite (parse_array_loop_fuel_le stof f2 (S (f1 + f2)) view _ _ _ ltac:(lia) Hp2).
    rewrite <- app_assoc. simpl app. do 3 f_equal.
    subst sep. destruct flag; simpl; rewrite ?length_app; simpl; lia.
Qed.

Lemma reads_back_bool b : reads (value_bool b) (if b then str "true" else str "false").
Proof.
  split; [reflexivity|]. split.
  { destruct b; simpl; eexists _, _; split; try reflexivity; discriminate. }
  intros pre post _. exists 1, (value_bool b). split; [|destruct b; reflexivity].
  destruct b; simpl app.
  - apply (parse_boolean_dispatch stof 0 pre _).
  - apply (parse_boolean_dispatch stof 0 pre _).
Qed.

Lemma reads_back_string s :
  reads (value_string s) ([dquote] ++ escape_quotes s ++ [dquote]).
Proof.
  split; [reflexivity|]. split.
  { eexists _, _; split; [reflexivity|discriminate]. }
  intros pre post Hpost. exists 1, (value_string s). split.
  - simpl app. rewrite <- app_assoc. simpl app.
    rewrite parse__eq, nth_error_middle. change (dispatch dquote) with case_string.
    cbv iota. rewrite parse_string_escaped by assumption.
    simpl length. rewrite length_app. simpl length. do 3 f_equal. lia.
  - simpl. rewrite text_eq_refl. reflexivity.
Qed.

Lemma reads_back_scalar f :
  scalar_roundtrips stof ostream_float f -> reads (value_float f) (ostream_float f).
Proof.
  intros ((c & r & E & Hc) & Hstof). split; [reflexivity|]. split.
  { exists c, r. split; [assumption|]. rewrite Hc. discriminate. }
  intros pre post Hpost. destruct (Hstof post Hpost) as (f' & Hf' & Heq).
  exists 1, (value_float f'). split.
  - rewrite E in *. simpl app in *.
    rewrite (parse_scalar_dispatch stof 0 pre c (r ++ post) Hc), Hf'.
    rewrite Nat2Pos.id by (simpl; lia). reflexivity.
  - simpl. rewrite Heq. reflexivity.
Qed.

Lemma reads_back_array l ts :
  Forall2 reads l ts ->
  reads (value_array l) ("["%char :: items_text ts false ++ ["]"%char]).
Proof.
  intro H. split.
  { simpl.
    rewrite (array_items_text (to_string ostream_float true) l ts).
    - reflexivity.
    - clear -H. induction H as [|x t l ts Hx _ IH]; constructor; auto. apply Hx. }
  split.
  { eexists _, _; split; [reflexivity|discriminate]. }
  intros pre post _.
  destruct (loop_reads_back l ts H false (pre ++ ["["%char]) post [])
    as (fuel & l' & Hp & Hl').
  exists (S fuel), (value_array l'). split.
  - simpl app. rewrite <- app_assoc. simpl app.
    rewrite parse__eq, nth_error_middle. change (dispatch "["%char) with case_array.
    cbv iota. rewrite <- app_assoc, length_app in Hp. simpl in Hp.
    rewrite Hp. simpl length. rewrite length_app. simpl length. do 3 f_equal. lia.
  - rewrite equals_array. apply std_equal_true_iff. assumption.
Qed.

Lemma rt_reads_back v : rt stof ostream_float v -> exists t, reads v t.
Proof.
  induction v as [ty|ty l IH|ty s|ty b|ty f] using value_rect'; intro H.
  - inversion H.
  - inversion H; subst. 
    assert (exists ts, Forall2 reads l ts) as (ts & Hts).
    { match goal with Hl : Forall (rt stof ostream_float) l |- _ => revert Hl end. clear H.
      induction IH as [|x l Hx _ IHl]; intro Hl.
      - exists []. constructor.
      - inversion Hl; subst. destruct (Hx ltac:(assumption)) as (t & Ht).
        destruct (IHl ltac:(assumption)) as (ts & Hts).
        exists (t :: ts). constructor; assumption. }
    eexists. apply reads_back_array. eassumption.
  - inversion H; subst. eexists. apply reads_back_string.
  - inversion H; subst. eexists. apply reads_back_bool.
  - inversion H; subst. eexists. apply reads_back_scalar. assumption.
Qed.
End RoundTrip.

(** C3, amended — [parse(to_string(v, true)).equals(v)] is true for [v]
    Nil, and for every [v] built from Boolean, String, Scalar whose text the
    host parser reads back to an equal float, and Array of those.  (Nil is
    not among the elements of an Array here.) *)
Theorem parse_to_string_roundtrip (stof : text -> stof_result) (ostream_float : float -> text) (v : value) :
  roundtrippable stof ostream_float v ->
  (s <- to_string ostream_float true v ;; p <- parse stof s ;; equals p v) = Ok true.
Proof.
  intros [->|H].
  - reflexivity.
  - destruct (rt_reads_back stof ostream_float v H) as (t & Hs & (c & r & -> & _) & Hp).
    destruct (Hp [] [] I) as (fuel & v' & Hparse & Heq).
    rewrite Hs. simpl app in Hparse. rewrite app_nil_r in Hparse.
    change ((p <- parse stof (c :: r) ;; equals p v) = Ok true).
    rewrite (parse_of_parse_ stof fuel (c :: r) _ ltac:(discriminate) Hparse).
    exact Heq.
Qed.

Lemma three_half_roundtrips : scalar_roundtrips Host.stof Host.ostream_float three_half.
Proof.
  split.
  - exists "3"%char, (str ".5"). split; reflexivity.
  - intros [|c post]; simpl follows_ok.
    + intros _. exists three_half. split; reflexivity.
    + intros [->| ->]; exists three_half; split; reflexivity.
Defined.

Lemma parse_to_string_roundtrip_witness :
  to_string Host.ostream_float true sample
  = Ok (str "[true," ++ [dquote] ++ str "say " ++ [dquote; dquote] ++ str "hi"
          ++ [dquote; dquote; dquote] ++ str ",3.5,[],[false," ++ [dquote; dquote] ++ str "]]") /\
  (s <- to_string Host.ostream_float true sample ;;
   p <- parse Host.stof s ;; equals p sample) = Ok true.
Proof.
  split; [reflexivity|].
  apply (parse_to_string_roundtrip Host.stof Host.ostream_float sample).
  right. unfold sample.
  repeat (first [ apply rt_array | apply rt_bool | apply rt_string
                | apply rt_scalar; exact three_half_roundtrips
                | apply Forall_cons | apply Forall_nil ]).
Defined.

(** * Further properties *)

(** ** Float comparison *)

Lemma SFeqb_comm (a b : float) : F32.eqb a b = F32.eqb b a.
Proof.
  unfold F32.eqb, SFeqb, SFcompare.
  destruct a as [sa|sa| |sa ma ea], b as [sb|sb| |sb mb eb]; try reflexivity;
    try (destruct sa, sb; reflexivity).
  destruct sa, sb; try reflexivity;
    rewrite (Z.compare_antisym ea eb); destruct (ea ?= eb)%Z; simpl; try reflexivity;
    change (Pos.compare_cont Eq mb ma) with (Pos.compare mb ma);
    change (Pos.compare_cont Eq ma mb) with (Pos.compare ma mb);
    rewrite (Pos.compare_antisym ma mb); destruct (ma ?= mb)%positive; reflexivity.
Qed.

Lemma SFeqb_finite sa ma ea sb mb eb :
  F32.eqb (S754_finite sa ma ea) (S754_finite sb mb eb) = true
  <-> sa = sb /\ ma = mb /\ ea = eb.
Proof.
  unfold F32.eqb, SFeqb, SFcompare. split.
  - destruct sa, sb; try discriminate;
      destruct (Z.compare_spec ea eb); try discriminate;
      change (Pos.compare_cont Eq ma mb) with (Pos.compare ma mb);
      destruct (Pos.compare_spec ma mb); try discriminate; auto.
  - intros (-> & -> & ->). rewrite Z.compare_refl.
    change (Pos.compare_cont Eq mb mb) with (Pos.compare mb mb).
    rewrite Pos.compare_refl. destruct sb; reflexivity.
Qed.

Lemma SFeqb_refl (f : float) : F32.eqb f f = match f with S754_nan => false | _ => true end.
Proof.
  destruct f as [s|s| |s m e]; try (destruct s; reflexivity); try reflexivity.
  apply SFeqb_finite. auto.
Qed.

Lemma SFeqb_trans (a b c : float) :
  F32.eqb a b = true -> F32.eqb b c = true -> F32.eqb a c = true.
Proof.
  destruct a as [sa|sa| |sa ma ea], b as [sb|sb| |sb mb eb], c as [sc|sc| |sc mc ec];
    try discriminate; try reflexivity;
    try (destruct sa, sb; discriminate); try (destruct sb, sc; discriminate);
    try (destruct sa, sb, sc; (discriminate || reflexivity)).
  rewrite !SFeqb_finite. intros (-> & -> & ->) (-> & -> & ->). auto.
Qed.

Lemma text_eq_comm (a b : text) :
  (if list_eq_dec ascii_dec a b then true else false)
  = (if list_eq_dec ascii_dec b a then true else false).
Proof. destruct (list_eq_dec ascii_dec a b), (list_eq_dec ascii_dec b a); congruence. Qed.

(** ** Equality as a relation *)

Lemma std_equal_comm (a b : list value) :
  Forall (fun x => forall y, equals x y = equals y x) a ->
  std_equal equals a b = std_equal equals b a.
Proof.
  intro H. unfold std_equal. rewrite (Nat.eqb_sym (length b) (length a)).
  destruct (length a =? length b) eqn:E; simpl; [|reflexivity].
  apply Nat.eqb_eq in E. revert b E.
  induction H as [|x a Hx _ IH]; intros [|y b] E; simpl in *; try discriminate; auto.
  rewrite Hx. destruct (equals y x) as [[]| |]; simpl; auto.
Qed.

Lemma equals_comm (a b : value) : equals a b = equals b a.
Proof.
  revert b. induction a as [ty|ty l IH|ty s|ty c|ty f] using value_rect';
    intros [tb pb]; destruct ty, tb; simpl; try reflexivity;
    destruct pb; simpl; try reflexivity.
  - apply std_equal_comm. exact IH.
  - rewrite text_eq_comm. reflexivity.
  - destruct c, b; reflexivity.
  - rewrite SFeqb_comm. reflexivity.
Qed.

Lemma fold_eq_comm (a b : text) :
  std_equal (fun l r => Ok (char_eqb (tolower l) (tolower r))) a b
  = std_equal (fun l r => Ok (char_eqb (tolower l) (tolower r))) b a.
Proof.
  rewrite !std_equal_pure. f_equal.
  destruct ((length a =? length b)
            && forallb (fun xy => char_eqb (tolower (fst xy)) (tolower (snd xy))) (combine a b))
    eqn:E1;
  destruct ((length b =? length a)
            && forallb (fun xy => char_eqb (tolower (fst xy)) (tolower (snd xy))) (combine b a))
    eqn:E2; try reflexivity.
  - apply fold_eq_iff_map in E1. symmetry in E1. apply fold_eq_iff_map in E1. congruence.
  - apply fold_eq_iff_map in E2. symmetry in E2. apply fold_eq_iff_map in E2. congruence.
Qed.

Lemma equals_invariant_comm (a b : value) : equals_invariant a b = equals_invariant b a.
Proof.
  destruct a as [ta pa], b as [tb pb]. unfold equals_invariant.
  destruct ta, tb; simpl; try reflexivity; destruct pa, pb; simpl; try reflexivity.
  - apply std_equal_comm. apply Forall_forall. intros x _ y. apply equals_comm.
  - destruct b, b0; reflexivity.
  - rewrite SFeqb_comm. reflexivity.
  - apply fold_eq_comm.
Qed.

(** X1 — both equality forms are symmetric, outcome included: swapping the
    operands changes neither the answer nor whether the comparison throws. *)
Theorem equals_symmetric (a b : value) :
  equals a b = equals b a /\ equals_invariant a b = equals_invariant b a.
Proof. split; [apply equals_comm|apply equals_invariant_comm]. Qed.

Lemma Forall2_trans_on {A} (R : A -> A -> Prop) (la lb lc : list A) :
  Forall (fun x => forall y z, R x y -> R y z -> R x z) la ->
  Forall2 R la lb -> Forall2 R lb lc -> Forall2 R la lc.
Proof.
  intros H H1. revert lc. induction H1 as [|x y la lb Hxy _ IH]; intros lc H2.
  - inversion H2. constructor.
  - inversion H2; subst. inversion H; subst. constructor; eauto.
Qed.

(** X2 — [equals] is transitive. *)
Theorem equals_transitive (a b c : value) :
  equals a b = Ok true -> equals b c = Ok true -> equals a c = Ok true.
Proof.
  revert b c. induction a as [ty|ty l IH|ty s|ty x|ty f] using value_rect';
    intros [tb pb] [tc pc]; destruct ty, tb; simpl; try discriminate;
    destruct pb; simpl; try discriminate;
    destruct tc; simpl; try discriminate; try (intros; reflexivity);
    destruct pc; simpl; try discriminate.
  - intros H1 H2. apply std_equal_true_iff. apply std_equal_true_iff in H1, H2.
    eapply Forall2_trans_on; eauto.
  - destruct (list_eq_dec ascii_dec s s0), (list_eq_dec ascii_dec s0 s1);
      try discriminate. intros _ _. subst. rewrite text_eq_refl. reflexivity.
  - destruct x, b, b0; try discriminate; reflexivity.
  - intros H1 H2. injection H1 as H1. injection H2 as H2.
    rewrite (SFeqb_trans _ _ _ H1 H2). reflexivity.
Qed.

Lemma equals_transitive_witness :
  equals (value_array [value_float (S754_zero true)])
         (value_array [value_float (S754_zero false)]) = Ok true.
Proof.
  apply (equals_transitive _ (value_array [value_float (S754_zero false)]) _); reflexivity.
Defined.

Lemma equal_loop_self (l : list value) :
  Forall (fun v => wf v = true -> equals v v = Ok (nan_free v)) l ->
  forallb wf l = true ->
  equal_loop equals l l = Ok (forallb nan_free l).
Proof.
  induction 1 as [|x l Hx _ IH]; simpl; [reflexivity|].
  rewrite andb_true_iff. intros [Wx Wl]. rewrite (Hx Wx). simpl.
  destruct (nan_free x); simpl; auto.
Qed.

(** X3 — on a well-formed value [equals] is reflexive exactly when no NaN
    is stored in it: [v.equals(v)] answers whether [v] is free of NaN. *)
Theorem equals_reflexive_up_to_nan (v : value) :
  wf v = true -> equals v v = Ok (nan_free v).
Proof.
  induction v as [ty|ty l IH|ty s|ty b|ty f] using value_rect';
    destruct ty; simpl; try discriminate; intro W.
  - reflexivity.
  - unfold std_equal. rewrite Nat.eqb_refl. simpl. apply equal_loop_self; assumption.
  - rewrite text_eq_refl. reflexivity.
  - destruct b; reflexivity.
  - rewrite SFeqb_refl. destruct f; reflexivity.
Qed.

Lemma equals_reflexive_up_to_nan_witness :
  equals sample sample = Ok true /\
  equals (value_array [value_float S754_nan]) (value_array [value_float S754_nan]) = Ok false.
Proof.
  split.
  - apply (equals_reflexive_up_to_nan sample). reflexivity.
  - apply (equals_reflexive_up_to_nan (value_array [value_float S754_nan])). reflexivity.
Defined.

Lemma equal_loop_total (a b : list value) :
  Forall (fun x => forall y, wf x = true -> wf y = true -> exists r, equals x y = Ok r) a ->
  forallb wf a = true -> forallb wf b = true -> length a = length b ->
  exists r, equal_loop equals a b = Ok r.
Proof.
  intro H. revert b. induction H as [|x a Hx _ IH]; intros [|y b]; simpl;
    try discriminate; eauto.
  rewrite !andb_true_iff. intros [Wx Wa] [Wy Wb] E.
  destruct (Hx y Wx Wy) as ([] & ->); simpl; eauto.
Qed.

(** X4 — comparing two well-formed values never throws, with either
    equality form. *)
Theorem equals_never_throws_on_wf (a b : value) :
  wf a = true -> wf b = true ->
  (exists r, equals a b = Ok r) /\ (exists r, equals_invariant a b = Ok r).
Proof.
  assert (forall a b, wf a = true -> wf b = true -> exists r, equals a b = Ok r) as Heq.
  { clear a b. intro a.
    induction a as [ty|ty l IH|ty s|ty x|ty f] using value_rect';
      intros [tb pb]; destruct ty; simpl; try discriminate;
      destruct tb; simpl; try discriminate; eauto;
      destruct pb; simpl; try discriminate; eauto.
    intros Wa Wb. unfold std_equal.
    destruct (Nat.eqb_spec (length l) (length l0)); simpl; eauto.
    apply equal_loop_total; assumption. }
  intros Wa Wb. split; [apply Heq; assumption|].
  destruct a as [ta pa], b as [tb pb]. unfold equals_invariant.
  destruct ta, pa; simpl in Wa; try discriminate;
    destruct tb, pb; simpl in Wb; try discriminate; simpl; eauto.
  - apply (Heq (value_array l) (value_array l0)); assumption.
  - rewrite std_equal_pure. eauto.
Qed.

Lemma equals_never_throws_on_wf_witness :
  (exists r, equals sample (value_string (str "x")) = Ok r) /\
  (exists r, equals_invariant sample sample = Ok r).
Proof.
  split.
  - apply (equals_never_throws_on_wf sample (value_string (str "x"))); reflexivity.
  - apply (equals_never_throws_on_wf sample sample); reflexivity.
Defined.

(** X5 — whatever [equals] accepts, [equals_invariant] accepts as well. *)
Theorem equals_implies_equals_invariant (a b : value) :
  equals a b = Ok true -> equals_invariant a b = Ok true.
Proof.
  destruct a as [ta pa], b as [tb pb]. unfold equals_invariant.
  destruct ta, tb; simpl; try discriminate; auto;
    destruct pa; simpl; try discriminate; destruct pb; simpl; try discriminate; auto.
  destruct (list_eq_dec ascii_dec s s0); [|discriminate]. intros _. subst.
  rewrite std_equal_pure. f_equal. apply fold_eq_iff_map. reflexivity.
Qed.

Lemma equals_implies_equals_invariant_witness :
  equals_invariant sample sample = Ok true.
Proof. apply (equals_implies_equals_invariant sample sample). reflexivity. Defined.

(** ** Comparison against raw literals *)

(** X6 — [==] against a raw string, vector, float or double answers what
    [equals] answers against the value built from that literal, and [!=]
    answers the opposite. *)
Theorem literal_comparison_is_equals (v : value) :
  (forall s, op_eq_string v s = equals v (value_string s)) /\
  (forall l, op_eq_vector v l = equals v (value_array l)) /\
  (forall x, op_eq_float v x = equals v (value_float x)) /\
  (forall d, op_eq_double v d = equals v (value_double d)) /\
  (forall s, op_ne_string v s = negb_ (equals v (value_string s))) /\
  (forall l, op_ne_vector v l = negb_ (equals v (value_array l))) /\
  (forall x, op_ne_float v x = negb_ (equals v (value_float x))) /\
  (forall w, op_ne v w = negb_ (equals v w)).
Proof.
  assert (forall s, op_eq_string v s = equals v (value_string s)) as Hs.
  { intro s. destruct v as [ty p]. unfold op_eq_string.
    destruct ty; simpl; try reflexivity. destruct p; simpl; try reflexivity.
    rewrite text_eq_comm. reflexivity. }
  assert (forall l, op_eq_vector v l = equals v (value_array l)) as Hl.
  { intro l. destruct v as [ty p]. unfold op_eq_vector.
    destruct ty; simpl; try reflexivity. destruct p; reflexivity. }
  assert (forall x, op_eq_float v x = equals v (value_float x)) as Hx.
  { intro x. destruct v as [ty p]. unfold op_eq_float, op_rel_float.
    destruct ty; simpl; try reflexivity. destruct p; simpl; try reflexivity.
    rewrite SFeqb_comm. reflexivity. }
  repeat split; intros; unfold op_ne_string, op_ne_vector, op_ne_float, op_ne, op_eq_double;
    rewrite ?Hs, ?Hl, ?Hx; reflexivity.
Qed.

(** ** Accessors *)

(** X7 — a const accessor answers what the mutable one answers, and the
    mutable one leaves the object as it is when the tag already names the
    requested type. *)
Theorem const_and_mutable_accessors_agree (v : value) :
  (as_float_const v = ('(x, _) <- as_float v ;; Ok x)) /\
  (as_bool_const v = ('(x, _) <- as_bool v ;; Ok x)) /\
  (as_string_const v = ('(x, _) <- as_string v ;; Ok x)) /\
  (as_array_const v = ('(x, _) <- as_array v ;; Ok x)) /\
  (forall x v', is_scalar v = true -> as_float v = Ok (x, v') -> v' = v) /\
  (forall x v', is_boolean v = true -> as_bool v = Ok (x, v') -> v' = v) /\
  (forall x v', is_string v = true -> as_string v = Ok (x, v') -> v' = v) /\
  (forall x v', is_array v = true -> as_array v = Ok (x, v') -> v' = v).
Proof.
  destruct v as [ty p].
  unfold as_float_const, as_bool_const, as_string_const, as_array_const,
    as_float, as_bool, as_string, as_array, is_scalar, is_boolean, is_string, is_array.
  repeat split; try (destruct ty, p; reflexivity);
    intros x v' E; destruct ty; try discriminate E; simpl; intro H;
    apply bind_Ok in H as (y & _ & H); injection H as _ <-; reflexivity.
Qed.

Lemma const_and_mutable_accessors_agree_witness :
  as_float_const (value_float five) = Ok five /\
  as_float (value_float five) = Ok (five, value_float five) /\
  value_float five = value_float five.
Proof.
  destruct (const_and_mutable_accessors_agree (value_float five))
    as (H1 & _ & _ & _ & H & _).
  split; [rewrite H1; reflexivity|]. split; [reflexivity|].
  exact (H five (value_float five) eq_refl eq_refl).
Defined.

(** X8 — a mutable accessor of the wrong type on a value that is not Nil
    leaves an object that cannot be serialized: [to_string] throws
    [std::bad_variant_access] on it. *)
Theorem mismatched_access_breaks_to_string (v : value)
  (ostream_float : float -> text) (escape : bool) :
  is_nil v = false ->
  (forall x v', is_scalar v = false -> as_float v = Ok (x, v') ->
                to_string ostream_float escape v' = Throw bad_variant_access) /\
  (forall x v', is_boolean v = false -> as_bool v = Ok (x, v') ->
                to_string ostream_float escape v' = Throw bad_variant_access) /\
  (forall x v', is_string v = false -> as_string v = Ok (x, v') ->
                to_string ostream_float escape v' = Throw bad_variant_access) /\
  (forall x v', is_array v = false -> as_array v = Ok (x, v') ->
                to_string ostream_float escape v' = Throw bad_variant_access).
Proof.
  destruct v as [ty p].
  unfold is_nil, is_scalar, is_boolean, is_string, is_array,
    as_float, as_bool, as_string, as_array.
  intro N. repeat split; intros x v' E H; destruct ty;
    try discriminate N; try discriminate E; simpl in H; injection H as _ <-;
    reflexivity.
Qed.

Lemma mismatched_access_breaks_to_string_witness :
  to_string Host.ostream_float true (Value value_type.String (vector []))
  = Throw bad_variant_access.
Proof.
  destruct (mismatched_access_breaks_to_string (value_string (str "abc"))
              Host.ostream_float true eq_refl) as (_ & _ & _ & H).
  apply (H [] _ eq_refl). reflexivity.
Defined.

(** X9 — the five specialized [is<T>] partition the values: for every
    value exactly one of them holds, and [is] at any other type is false. *)
Theorem is_partitions_values (val : value) :
  length (filter (fun T => is_ T val) [T_float; T_string; T_vector; T_bool; T_void]) = 1
  /\ is_ T_other val = false.
Proof. destruct val as [[] p]; split; reflexivity. Qed.

(** X10 — on a well-formed value no [get<T>] throws: it returns the payload
    when [is<T>] holds and the zero of [T] when it does not. *)
Theorem get_is_soft (val : value) :
  wf val = true ->
  get_float_ val = Ok (if is_ T_float val then payload val else F32.zero) /\
  get_bool_ val = Ok (match m_variant val with bool_ b => b | _ => false end) /\
  get_string_ val = Ok (match m_variant val with string_ s => s | _ => [] end) /\
  get_vector_ val = Ok (match m_variant val with vector l => l | _ => [] end).
Proof.
  destruct val as [ty p]. destruct ty, p; simpl; try discriminate; intros _;
    repeat split; reflexivity.
Qed.

Lemma get_is_soft_witness :
  get_float_ (value_string (str "abc")) = Ok F32.zero /\
  get_string_ (value_string (str "abc")) = Ok (str "abc").
Proof.
  destruct (get_is_soft (value_string (str "abc")) eq_refl) as (Hf & _ & Hs & _).
  split; [exact Hf|exact Hs].
Defined.

(** ** Boolean operators and chained arithmetic *)

(** X11 — [v && b] is true exactly when [v] is [Boolean(true)] and [b] is
    true; [v || b] is true exactly when [v] is tagged Boolean and [b] is
    true or the payload is: on any other receiver [v || true] is false. *)
Theorem boolean_operators_characterized (v : value) (other : bool) :
  (op_and v other = Ok true <-> v = value_bool true /\ other = true) /\
  (op_or v other = Ok true
   <-> is_boolean v = true /\ (other = true \/ m_variant v = bool_ true)) /\
  (is_boolean v = false -> op_and v other = Ok false /\ op_or v other = Ok false).
Proof.
  destruct v as [ty p]. unfold op_and, op_or, is_boolean, as_bool_const, value_bool.
  split; [|split].
  - split.
    + destruct ty; simpl; try discriminate. destruct other; simpl; try discriminate.
      destruct p; simpl; try discriminate. intro H. injection H as ->. auto.
    + intros [H ->]. injection H as -> ->. reflexivity.
  - split.
    + destruct ty; simpl; try discriminate. intro H. split; [reflexivity|].
      destruct other; [auto|]. right.
      destruct p; simpl in H; try discriminate. injection H as ->. reflexivity.
    + intros [H [->|E]]; destruct ty; try discriminate H; simpl in *.
      * reflexivity.
      * rewrite E. destruct other; reflexivity.
  - intro H. destruct ty; try discriminate H; split; reflexivity.
Qed.

Lemma boolean_operators_characterized_witness :
  op_or (value_float five) true = Ok false /\ op_and (value_float five) true = Ok false.
Proof.
  destruct (boolean_operators_characterized (value_float five) true) as (_ & _ & H).
  destruct (H eq_refl) as [Ha Ho]. split; assumption.
Defined.

(** X12 — chained arithmetic on well-formed operands: [(a op b) op' c] is
    the Scalar of the two operations when all three are Scalar, and
    [Boolean(false)] as soon as one of them is not. *)
Theorem chained_arithmetic (f g : float -> float -> float) (a b c : value) :
  wf a = true -> wf b = true -> wf c = true ->
  (r <- op_arith f a b ;; op_arith g r c)
  = Ok (if is_scalar a && is_scalar b && is_scalar c
        then value_float (g (f (payload a) (payload b)) (payload c))
        else value_bool false).
Proof.
  intros Wa Wb Wc. unfold op_arith.
  destruct (is_scalar a) eqn:Sa; [destruct (is_scalar b) eqn:Sb|]; unfold is_scalar in *.
  - rewrite (wf_scalar a Wa Sa), (wf_scalar b Wb Sb). simpl.
    destruct (value_type.eqb (m_type c) value_type.Scalar) eqn:Sc; simpl.
    + rewrite (wf_scalar c Wc Sc). reflexivity.
    + reflexivity.
  - rewrite Sa, Sb. simpl. reflexivity.
  - rewrite Sa. simpl. reflexivity.
Qed.

Lemma chained_arithmetic_witness :
  (r <- op_add (value_float one) (value_string (str "a")) ;; op_mul r (value_float five))
  = Ok (value_bool false) /\
  (r <- op_add (value_float one) (value_float five) ;; op_mul r (value_float five))
  = Ok (value_float (F32.of_Z 30)).
Proof.
  split.
  - apply (chained_arithmetic F32.add F32.mul (value_float one) (value_string (str "a"))
             (value_float five)); reflexivity.
  - apply (chained_arithmetic F32.add F32.mul (value_float one) (value_float five)
             (value_float five)); reflexivity.
Defined.

(** ** The parser looks forward only *)

Lemma find_end_shift n c rest copy quotes :
  find_end c rest (n + copy) quotes
  = (n + fst (find_end c rest copy quotes), snd (find_end c rest copy quotes)).
Proof.
  revert copy quotes. induction rest as [|x|x y r IH1 IH2] using text_ind2;
    intros copy quotes.
  - reflexivity.
  - simpl. destruct (char_eqb x c); simpl; f_equal; lia.
  - change (find_end c (x :: y :: r) (n + copy) quotes) with
      (if char_eqb x c then
         if char_eqb y c then find_end c r (n + copy + 2) (quotes + 1)
         else (n + copy + 1, quotes)
       else find_end c (y :: r) (n + copy + 1) quotes).
    change (find_end c (x :: y :: r) copy quotes) with
      (if char_eqb x c then
         if char_eqb y c then find_end c r (copy + 2) (quotes + 1)
         else (copy + 1, quotes)
       else find_end c (y :: r) (copy + 1) quotes).
    rewrite <- !Nat.add_assoc.
    destruct (char_eqb x c); [destruct (char_eqb y c)|]; auto.
Qed.

Lemma read_body_shift n c rest begin target :
  read_body c rest (n + begin) target
  = (fst (read_body c rest begin target), n + snd (read_body c rest begin target)).
Proof.
  revert begin target. induction rest as [|x|x y r IH1 IH2] using text_ind2;
    intros begin target.
  - reflexivity.
  - simpl. destruct (char_eqb x c); simpl; f_equal; lia.
  - change (read_body c (x :: y :: r) (n + begin) target) with
      (if char_eqb x c then
         if char_eqb y c then read_body c r (n + begin + 2) (target ++ [x])
         else (target, n + begin + 1)
       else read_body c (y :: r) (n + begin + 1) (target ++ [x])).
    change (read_body c (x :: y :: r) begin target) with
      (if char_eqb x c then
         if char_eqb y c then read_body c r (begin + 2) (target ++ [x])
         else (target, begin + 1)
       else read_body c (y :: r) (begin + 1) (target ++ [x])).
    rewrite <- !Nat.add_assoc.
    destruct (char_eqb x c); [destruct (char_eqb y c)|]; auto.
Qed.

Lemma nth_error_shift {A} (pre view : list A) b :
  nth_error (pre ++ view) (length pre + b) = nth_error view b.
Proof. rewrite nth_error_app2 by lia. f_equal. lia. Qed.

Lemma skipn_shift {A} (pre view : list A) b :
  skipn (length pre + b) (pre ++ view) = skipn b view.
Proof.
  rewrite skipn_app, skipn_all2 by lia. simpl. f_equal. lia.
Qed.

Lemma at_end_shift (pre view : text) b :
  (length pre + b =? length (pre ++ view)) = (b =? length view).
Proof.
  rewrite length_app.
  destruct (Nat.eqb_spec b (length view)), (Nat.eqb_spec (length pre + b) (length pre + length view));
    try reflexivity; lia.
Qed.

Section Forward.
Variable stof : text -> stof_result.

Lemma parse_string_shift pre view b :
  Some (parse_string (pre ++ view) (length pre + b))
  = shift_cursor (length pre) (Some (parse_string view b)).
Proof.
  unfold parse_string, deref. rewrite nth_error_shift.
  destruct (nth_error view b) as [c|]; [|reflexivity]. simpl bind.
  rewrite <- Nat.add_assoc, skipn_shift, find_end_shift, read_body_shift.
  destruct (find_end c (skipn (b + 1) view) (b + 1) 0) as [copy quotes].
  destruct (read_body c (skipn (b + 1) view) (b + 1) []) as [target b'].
  simpl fst. simpl snd.
  replace (Z.of_nat (length pre + copy) - Z.of_nat (length pre + b) - 2 - Z.of_nat quotes)%Z
    with (Z.of_nat copy - Z.of_nat b - 2 - Z.of_nat quotes)%Z by lia.
  destruct (reserve _); reflexivity.
Qed.

Lemma parse_boolean_shift pre view b :
  Some (parse_boolean (pre ++ view) (length pre + b))
  = shift_cursor (length pre) (Some (parse_boolean view b)).
Proof.
  unfold parse_boolean, deref. rewrite nth_error_shift.
  destruct (nth_error view b) as [c|]; [|reflexivity]. simpl.
  destruct (_ || _); simpl; do 3 f_equal; lia.
Qed.

Lemma parse_scalar_shift pre view b :
  Some (parse_scalar stof (pre ++ view) (length pre + b))
  = shift_cursor (length pre) (Some (parse_scalar stof view b)).
Proof.
  unfold parse_scalar, substr. rewrite skipn_shift, length_app.
  destruct (Nat.ltb_spec (length view) b), (Nat.ltb_spec (length pre + length view) (length pre + b));
    try lia; [reflexivity|].
  simpl bind. destruct (stof _); simpl; try reflexivity. do 3 f_equal. lia.
Qed.

Lemma parse_shift fuel :
  forall pre view b,
    parse_ stof fuel (pre ++ view) (length pre + b)
    = shift_cursor (length pre) (parse_ stof fuel view b) /\
    (forall values,
        parse_array_loop stof fuel (pre ++ view) (length pre + b) values
        = shift_cursor (length pre) (parse_array_loop stof fuel view b values)).
Proof.
  induction fuel as [|fuel IH]; intros pre view b.
  - split; reflexivity.
  - split.
    + rewrite !parse__eq, nth_error_shift.
      destruct (nth_error view b) as [c|]; [|reflexivity].
      destruct (dispatch c).
      * replace (length pre + b + 1) with (length pre + (b + 1)) by lia. apply IH.
      * apply parse_string_shift.
      * apply parse_boolean_shift.
      * apply parse_scalar_shift.
      * replace (length pre + b + 1) with (length pre + (b + 1)) by lia.
        rewrite (at_end_shift pre view (b + 1)).
        destruct (negb _); [apply IH|reflexivity].
    + intro values. rewrite !parse_array_loop_eq, nth_error_shift.
      destruct (nth_error view b) as [c|]; [|reflexivity].
      destruct (char_eqb c "]").
      * simpl. do 3 f_equal. lia.
      * rewrite (proj1 (IH pre view b)).
        destruct (parse_ stof fuel view b) as [[[x b']|e|]|]; try reflexivity.
        cbv beta iota delta [shift_cursor]. rewrite (at_end_shift pre view b').
        destruct (negb _); [apply IH|reflexivity].
Qed.
End Forward.

(** X13 — the parser looks forward only: the same text behind any prefix
    gives the same answer, with the cursor moved by the length of the
    prefix. *)
Theorem parse_ignores_what_is_before_the_cursor
  (stof : text -> stof_result) (fuel : nat) (pre view : text) (b : nat) :
  parse_ stof fuel (pre ++ view) (length pre + b)
  = shift_cursor (length pre) (parse_ stof fuel view b) /\
  (forall values,
      parse_array_loop stof fuel (pre ++ view) (length pre + b) values
      = shift_cursor (length pre) (parse_array_loop stof fuel view b values)).
Proof. apply parse_shift. Qed.

(** ** Unrecognized characters *)

Section Junk.
Variable stof : text -> stof_result.

(** From a cursor on, nothing but unrecognized characters: [parse_] runs
    to the end of the view and answers Nil. *)
Lemma parse_junk_to_end junk :
  junk <> [] -> Forall unrecognized junk ->
  forall pre, parse_ stof (length junk) (pre ++ junk) (length pre)
              = Some (Ok (value_nil, length (pre ++ junk))).
Proof.
  induction junk as [|c js IH]; [congruence|]. intros _ H pre.
  inversion H as [|? ? Hc Hjs]; subst.
  change (length (c :: js)) with (S (length js)).
  rewrite parse__eq, nth_error_middle, Hc.
  destruct js as [|c' js].
  - rewrite length_app. change (length [c]) with 1. rewrite Nat.eqb_refl. reflexivity.
  - assert (length (pre ++ c :: c' :: js) = length pre + 1 + S (length js)) as El.
    { rewrite length_app. simpl. lia. }
    rewrite El.
    destruct (Nat.eqb_spec (length pre + 1) (length pre + 1 + S (length js))); [lia|].
    cbv beta iota delta [negb].
    replace (pre ++ c :: c' :: js) with ((pre ++ [c]) ++ c' :: js)
      by (rewrite <- app_assoc; reflexivity).
    replace (length pre + 1) with (length (pre ++ [c]))
      by (rewrite length_app; reflexivity).
    rewrite (IH ltac:(discriminate) Hjs (pre ++ [c])).
    rewrite !length_app. simpl. do 3 f_equal; lia.
Qed.

(** Unrecognized characters in front of more text are stepped over. *)
Lemma parse_skip_junk junk rest fuel :
  Forall unrecognized junk -> rest <> [] ->
  forall pre, parse_ stof (length junk + fuel) (pre ++ junk ++ rest) (length pre)
              = parse_ stof fuel (pre ++ junk ++ rest) (length pre + length junk).
Proof.
  intros H Hrest. induction H as [|c js Hc _ IH]; intro pre.
  - change (length (@nil ascii)) with 0. rewrite Nat.add_0_r. reflexivity.
  - change (length (c :: js) + fuel) with (S (length js + fuel)).
    change ((c :: js) ++ rest) with (c :: js ++ rest).
    rewrite parse__eq, nth_error_middle, Hc.
    assert (length (pre ++ c :: js ++ rest) <> length pre + 1) as Hn.
    { rewrite !length_app. simpl. rewrite length_app.
      destruct rest; [congruence|simpl; lia]. }
    destruct (Nat.eqb_spec (length pre + 1) (length (pre ++ c :: js ++ rest)));
      [congruence|].
    cbv beta iota delta [negb].
    replace (pre ++ c :: js ++ rest) with ((pre ++ [c]) ++ js ++ rest)
      by (rewrite <- app_assoc; reflexivity).
    replace (length pre + 1) with (length (pre ++ [c]))
      by (rewrite length_app; reflexivity).
    rewrite (IH (pre ++ [c])). f_equal. rewrite length_app. simpl. lia.
Qed.
End Junk.

(** X14 — unrecognized characters in front of the text do not change what
    [parse] answers, and a text of unrecognized characters only (the text
    "nil" or white space, for instance) parses to Nil. *)
Theorem parse_skips_unrecognized_prefix (stof : text -> stof_result) (junk rest : text) :
  Forall unrecognized junk ->
  parse stof (junk ++ rest) = parse stof rest /\ parse stof junk = Ok value_nil.
Proof.
  intro H.
  assert (parse stof junk = Ok value_nil) as Hj.
  { destruct junk as [|c js]; [reflexivity|].
    rewrite (parse_of_parse_ stof (length (c :: js)) (c :: js) _ ltac:(discriminate)
               (parse_junk_to_end stof (c :: js) ltac:(discriminate) H [])).
    reflexivity. }
  split; [|exact Hj].
  destruct rest as [|d rest]; [rewrite app_nil_r; exact Hj|].
  destruct junk as [|c js]; [reflexivity|].
  destruct (parse_ stof (parse_fuel (d :: rest)) (d :: rest) 0) as [r|] eqn:E;
    [|exfalso; revert E; apply parse_fuel_enough].
  rewrite (parse_of_parse_ stof _ (d :: rest) r ltac:(discriminate) E).
  assert (parse_ stof (length (c :: js) + parse_fuel (d :: rest)) ((c :: js) ++ d :: rest) 0
          = parse_ stof (parse_fuel (d :: rest)) ((c :: js) ++ d :: rest)
              (length (c :: js) + 0)) as Hs.
  { rewrite Nat.add_0_r.
    exact (parse_skip_junk stof (c :: js) (d :: rest) (parse_fuel (d :: rest)) H
             ltac:(discriminate) []). }
  rewrite (proj1 (parse_shift stof (parse_fuel (d :: rest)) (c :: js) (d :: rest) 0)), E in Hs.
  destruct r as [[v b]| |]; cbv beta iota delta [shift_cursor] in Hs;
    rewrite (parse_of_parse_ stof _ ((c :: js) ++ d :: rest) _ ltac:(discriminate) Hs);
    reflexivity.
Qed.

Lemma parse_skips_unrecognized_prefix_witness :
  parse Host.stof (str "  nil, [1,2]") = parse Host.stof (str "[1,2]") /\
  parse Host.stof (str "  nil, ") = Ok value_nil.
Proof.
  apply (parse_skips_unrecognized_prefix Host.stof (str "  nil, ") (str "[1,2]")).
  repeat constructor.
Defined.

(** X15 — inside an array, when only unrecognized characters are left and
    the first of them is not the closing bracket, the array comes back as
    Nil; a closing bracket further on among them is stepped over like any
    other unrecognized character. *)
Theorem array_before_junk_is_nil (stof : text -> stof_result)
  (pre : text) (j : ascii) (js : text) (values : list value) (more : nat) :
  j <> "]"%char -> Forall unrecognized (j :: js) ->
  unrecognized "]"%char /\
  parse_array_loop stof (S (length (j :: js)) + more) (pre ++ j :: js) (length pre) values
  = Some (Ok (value_nil, length (pre ++ j :: js))).
Proof.
  intros Hj H. split; [reflexivity|].
  apply (parse_array_loop_fuel_le stof (S (length (j :: js)))); [lia|].
  rewrite parse_array_loop_eq, nth_error_middle.
  apply char_eqb_neq in Hj. rewrite Hj.
  rewrite (parse_junk_to_end stof (j :: js) ltac:(discriminate) H pre), Nat.eqb_refl.
  reflexivity.
Qed.

Lemma array_before_junk_is_nil_witness :
  parse_array_loop Host.stof 3 (str "[1 ]") 2 [value_int 1] = Some (Ok (value_nil, 4)) /\
  parse Host.stof (str "[1 ]") = Ok value_nil.
Proof.
  split; [|reflexivity].
  apply (array_before_junk_is_nil Host.stof (str "[1") " "%char (str "]") [value_int 1] 0).
  - discriminate.
  - repeat constructor.
Defined.

(** ** What the parser returns *)

Section Results.
Variable stof : text -> stof_result.

(** A Nil comes back only with the cursor at the end of the view, and no
    array that comes back has a Nil among its elements. *)
Lemma parse_nil_only_at_end fuel :
  forall view begin v begin',
    (parse_ stof fuel view begin = Some (Ok (v, begin')) ->
     no_nil_element v = true /\ (is_nil v = true -> begin' = length view)) /\
    (forall values,
        forallb (fun x => negb (is_nil x) && no_nil_element x) values = true ->
        parse_array_loop stof fuel view begin values = Some (Ok (v, begin')) ->
        no_nil_element v = true /\ (is_nil v = true -> begin' = length view)).
Proof.
  induction fuel as [|fuel IH]; intros view begin v begin'.
  - split; [|intros ? ?]; discriminate.
  - split.
    + rewrite parse__eq. destruct (nth_error view begin) as [c|]; [|discriminate].
      destruct (dispatch c).
      * apply IH. reflexivity.
      * unfold parse_string, deref. destruct (nth_error view begin); [|discriminate].
        simpl bind. destruct (find_end _ _ _ _) as [copy quotes].
        destruct (reserve _); try discriminate. simpl bind.
        destruct (read_body _ _ _ _). intro H. injection H as <- _.
        split; [reflexivity|discriminate].
      * unfold parse_boolean, deref. destruct (nth_error view begin); [|discriminate].
        simpl. destruct (_ || _); intro H; injection H as <- _;
          (split; [reflexivity|discriminate]).
      * unfold parse_scalar. destruct (substr view begin); try discriminate. simpl.
        destruct (stof _); try discriminate. intro H; injection H as <- _.
        split; [reflexivity|discriminate].
      * destruct (Nat.eqb_spec (begin + 1) (length view)) as [E|E]; simpl negb; cbv iota.
        -- intro H. injection H as <- <-. split; [reflexivity|auto].
        -- apply IH.
    + intros values Hv. rewrite parse_array_loop_eq.
      destruct (nth_error view begin) as [c|]; [|discriminate].
      destruct (char_eqb c "]").
      * intro H. injection H as <- _. split; [exact Hv|discriminate].
      * destruct (parse_ stof fuel view begin) as [[[x b]|e|]|] eqn:E; try discriminate.
        apply (IH view begin x b) in E. destruct E as [Nx Ex].
        destruct (Nat.eqb_spec b (length view)) as [Eb|Eb]; simpl negb; cbv iota.
        -- intro H. injection H as <- <-. split; [reflexivity|auto].
        -- apply IH. rewrite forallb_app, Hv. simpl. rewrite Nx.
           destruct (is_nil x); [exfalso; auto|reflexivity].
Qed.
End Results.

(** [to_string] on a well-formed value returns a text. *)
Lemma to_string_wf (ostream_float : float -> text) (escape : bool) (v : value) :
  wf v = true -> exists s, to_string ostream_float escape v = Ok s.
Proof.
  induction v as [ty|ty l IH|ty s|ty b|ty f] using value_rect';
    destruct ty; simpl; try discriminate; intro W; eauto.
  - assert (exists ts, Forall2 (fun x t => to_string ostream_float escape x = Ok t) l ts)
      as (ts & Hts).
    { induction IH as [|x l Hx _ IHl]; [exists []; constructor|].
      simpl in W. apply andb_true_iff in W as [Wx Wl].
      destruct (Hx Wx) as (t & Ht). destruct (IHl Wl) as (ts & Hts).
      exists (t :: ts). constructor; assumption. }
    rewrite (array_items_text _ l ts Hts). simpl. eauto.
  - destruct escape; eauto.
Qed.

Lemma parse_result_no_nil (stof : text -> stof_result) (view : text) (v : value) :
  parse stof view = Ok v -> no_nil_element v = true.
Proof.
  unfold parse. destruct view as [|c view].
  - intro H. injection H as <-. reflexivity.
  - destruct (parse_ stof (parse_fuel (c :: view)) (c :: view) 0) as [[[x b]|e|]|] eqn:E;
      try discriminate.
    simpl. intro H. injection H as <-.
    apply (parse_nil_only_at_end stof _ _ _ _ _) in E. apply E.
Qed.

(** X16 — no array that [parse] returns has a Nil among its elements, at
    any depth. *)
Theorem parsed_arrays_hold_no_nil (stof : text -> stof_result) (view : text) (v : value) :
  parse stof view = Ok v -> no_nil_element v = true.
Proof. apply parse_result_no_nil. Qed.

Lemma parsed_arrays_hold_no_nil_witness :
  no_nil_element (value_array [value_int 1; value_array [value_bool true]]) = true.
Proof.
  apply (parsed_arrays_hold_no_nil Host.stof (str "[1,nil,[nil,true]]")). reflexivity.
Defined.

(** X17 — whatever [parse] returns is well formed, so serializing it with
    [to_string] never throws. *)
Theorem parse_result_serializes (stof : text -> stof_result)
  (ostream_float : float -> text) (escape : bool) (view : text) (v : value) :
  parse stof view = Ok v ->
  wf v = true /\ exists s, to_string ostream_float escape v = Ok s.
Proof.
  intro H. apply parse_result_wf in H. split; [exact H|]. apply to_string_wf. exact H.
Qed.

Lemma parse_result_serializes_witness :
  wf (value_array [value_int 1; value_string (str "a")]) = true /\
  exists s, to_string Host.ostream_float true
              (value_array [value_int 1; value_string (str "a")]) = Ok s.
Proof.
  apply (parse_result_serializes Host.stof Host.ostream_float true (str "[1 'a']")).
  reflexivity.
Defined.

(** X18 — [to_string] never throws on a well-formed value, with either
    escape flag, and the text of an Array is its elements' text between
    brackets. *)
Theorem to_string_never_throws_on_wf (ostream_float : float -> text)
  (escape : bool) (v : value) :
  wf v = true ->
  (exists s, to_string ostream_float escape v = Ok s) /\
  (is_array v = true ->
   exists body, to_string ostream_float escape v = Ok ("["%char :: body ++ ["]"%char])).
Proof.
  intro W. split; [apply to_string_wf; exact W|].
  destruct v as [ty p]. destruct ty; try discriminate. intros _.
  destruct p; simpl in W; try discriminate.
  destruct (to_string_wf ostream_float escape (value_array l) W) as (s & Hs).
  simpl in Hs. simpl.
  assert (forall l flag acc s, array_items (to_string ostream_float escape) l flag acc = Ok s ->
                               exists body, s = acc ++ body) as Hacc.
  { clear. induction l as [|x l IH]; intros flag acc s; simpl.
    - intro H. injection H as <-. exists []. rewrite app_nil_r. reflexivity.
    - destruct (to_string ostream_float escape x) as [t| |]; try discriminate. simpl.
      intro H. apply IH in H as (body & ->).
      destruct flag; rewrite <- ?app_assoc; eauto. }
  destruct (array_items (to_string ostream_float escape) l false ["["%char]) as [t| |] eqn:E;
    try discriminate.
  apply Hacc in E as (body & ->). simpl. eauto.
Qed.

Lemma to_string_never_throws_on_wf_witness :
  exists body, to_string Host.ostream_float true sample = Ok ("["%char :: body ++ ["]"%char]).
Proof.
  apply (to_string_never_throws_on_wf Host.ostream_float true sample); reflexivity.
Defined.



(** ** Parsed values round-trip *)

Lemma parsed_shape_is_rt (stof : text -> stof_result) (ostream_float : float -> text)
  (v : value) :
  wf v = true -> no_nil_element v = true -> is_nil v = false ->
  all_scalars (scalar_roundtrips stof ostream_float) v ->
  rt stof ostream_float v.
Proof.
  induction v as [ty|ty l IH|ty s|ty b|ty f] using value_rect';
    destruct ty; simpl; try discriminate; intros W N _ S.
  - apply rt_array. induction IH as [|x l Hx _ IHl]; constructor.
    + simpl in W, N. apply andb_true_iff in W as [Wx _].
      apply andb_true_iff in N as [Nx _]. apply andb_true_iff in Nx as [Nx1 Nx2].
      apply Hx; try assumption; [|apply S].
      destruct (is_nil x); [discriminate|reflexivity].
    + simpl in W, N. apply andb_true_iff in W as [_ Wl].
      apply andb_true_iff in N as [_ Nl]. apply IHl; try assumption. apply S.
  - apply rt_string.
  - apply rt_bool.
  - apply rt_scalar. exact S.
Qed.

(** X20 — what [parse] returns round-trips: serialized again and parsed
    again it gives an equal value, provided the Scalars in it are written
    as texts the host parser reads back. *)
Theorem parsed_values_roundtrip (stof : text -> stof_result)
  (ostream_float : float -> text) (view : text) (v : value) :
  parse stof view = Ok v ->
  all_scalars (scalar_roundtrips stof ostream_float) v ->
  (s <- to_string ostream_float true v ;; p <- parse stof s ;; equals p v) = Ok true.
Proof.
  intros Hp Hs.
  pose proof (parse_result_wf stof view v Hp) as W.
  pose proof (parse_result_no_nil stof view v Hp) as N.
  destruct (is_nil v) eqn:E.
  - destruct v as [ty p]. destruct ty; try discriminate E.
    destruct p; try discriminate W. reflexivity.
  - pose proof (parsed_shape_is_rt stof ostream_float v W N E Hs) as R.
    destruct (rt_reads_back stof ostream_float v R) as (t & Ht & (c & r & -> & _) & Hback).
    destruct (Hback [] [] I) as (fuel & v' & Hparse & Heq).
    rewrite Ht. simpl app in Hparse. rewrite app_nil_r in Hparse.
    change ((p <- parse stof (c :: r) ;; equals p v) = Ok true).
    rewrite (parse_of_parse_ stof fuel (c :: r) _ ltac:(discriminate) Hparse).
    exact Heq.
Qed.

Lemma parsed_values_roundtrip_witness :
  parse Host.stof (str "  [true 'it''s' 3.5[]]")
  = Ok (value_array [value_bool true; value_string (str "it's"); value_float three_half;
                     value_array []]) /\
  (s <- to_string Host.ostream_float true
          (value_array [value_bool true; value_string (str "it's"); value_float three_half;
                        value_array []]) ;;
   p <- parse Host.stof s ;;
   equals p (value_array [value_bool true; value_string (str "it's");
                          value_float three_half; value_array []])) = Ok true.
Proof.
  split; [reflexivity|].
  apply (parsed_values_roundtrip Host.stof Host.ostream_float (str "  [true 'it''s' 3.5[]]")).
  - reflexivity.
  - simpl. pose proof three_half_roundtrips as H. tauto.
Defined.

(** ** String literals with either delimiter *)

Lemma find_end_doubled q body post copy quotes :
  match post with [] => True | c :: _ => char_eqb c q = false end ->
  find_end q (double_delim q body ++ q :: post) copy quotes
  = (copy + length (double_delim q body) + 1,
     quotes + length (filter (fun c => char_eqb c q) body)).
Proof.
  intro Hp. revert copy quotes.
  induction body as [|x body IH]; intros copy quotes.
  - simpl. rewrite char_eqb_refl. destruct post as [|c post]; [|rewrite Hp]; f_equal; lia.
  - simpl. destruct (char_eqb x q) eqn:E.
    + simpl. rewrite E, char_eqb_refl, IH. simpl. f_equal; lia.
    + simpl. rewrite E, IH. f_equal; lia.
Qed.

Lemma read_body_doubled q body post begin target :
  match post with [] => True | c :: _ => char_eqb c q = false end ->
  read_body q (double_delim q body ++ q :: post) begin target
  = (target ++ body, begin + length (double_delim q body) + 1).
Proof.
  intro Hp. revert begin target.
  induction body as [|x body IH]; intros begin target.
  - simpl. rewrite char_eqb_refl, app_nil_r.
    destruct post as [|c post]; [|rewrite Hp]; f_equal; lia.
  - simpl. destruct (char_eqb x q) eqn:E.
    + simpl. rewrite E, char_eqb_refl, IH, <- app_assoc. simpl. f_equal; lia.
    + simpl. rewrite E, IH, <- app_assoc. simpl. f_equal; lia.
Qed.

Lemma length_double_delim q s :
  length (double_delim q s) = length s + length (filter (fun c => char_eqb c q) s).
Proof.
  induction s as [|c s IH]; simpl; [reflexivity|].
  destruct (char_eqb c q); simpl; lia.
Qed.

Lemma escape_quotes_is_double_delim s : escape_quotes s = double_delim dquote s.
Proof. induction s as [|c s IH]; simpl; [reflexivity|]. rewrite IH. reflexivity. Qed.

(** X21 — the opening character of a string is its delimiter and its
    escape: for either quote [q], the text [q], a body with every [q] in it
    doubled, [q] parses to the String of that body with the cursor behind
    the closing [q], unless another [q] follows at once.  The text
    [to_string] writes for a String is that form with the double quote. *)
Theorem string_literal_reads_back (stof : text -> stof_result)
  (ostream_float : float -> text) (fuel : nat) (pre body post : text) (q : ascii) :
  dispatch q = case_string ->
  match post with [] => True | c :: _ => c <> q end ->
  parse_ stof (S fuel) (pre ++ q :: double_delim q body ++ q :: post) (length pre)
  = Some (Ok (value_string body, length pre + length (double_delim q body) + 2)) /\
  to_string ostream_float true (value_string body)
  = Ok (dquote :: double_delim dquote body ++ [dquote]).
Proof.
  intros Hq Hpost. split.
  - assert (match post with [] => True | c :: _ => char_eqb c q = false end) as Hp.
    { destruct post; [exact I|]. apply char_eqb_neq. exact Hpost. }
    rewrite parse__eq, nth_error_middle, Hq. unfold parse_string, deref.
    rewrite nth_error_middle. simpl bind.
    rewrite skipn_middle, find_end_doubled, read_body_doubled by assumption.
    rewrite length_double_delim. unfold reserve.
    destruct (Z.ltb_spec
                (Z.of_nat (length pre + 1
                           + (length body + length (filter (fun c => char_eqb c q) body)) + 1)
                 - Z.of_nat (length pre) - 2
                 - Z.of_nat (0 + length (filter (fun c => char_eqb c q) body))) 0); [lia|].
    simpl. do 3 f_equal. lia.
  - simpl. rewrite escape_quotes_is_double_delim. reflexivity.
Qed.

Lemma string_literal_reads_back_witness :
  parse_ Host.stof 1 (str "['it''s',1]") 1 = Some (Ok (value_string (str "it's"), 8)).
Proof.
  apply (string_literal_reads_back Host.stof Host.ostream_float 0 (str "[") (str "it's")
           (str ",1]") squote).
  - reflexivity.
  - discriminate.
Defined.

(** ** Relational operators among themselves *)

Lemma SFcompare_antisym (a b : float) :
  SFcompare a b = option_map CompOpp (SFcompare b a).
Proof.
  unfold SFcompare.
  destruct a as [sa|sa| |sa ma ea], b as [sb|sb| |sb mb eb]; try reflexivity;
    try (destruct sa; reflexivity); try (destruct sb; reflexivity);
    try (destruct sa, sb; reflexivity).
  destruct sa, sb; try reflexivity; simpl;
    rewrite (Z.compare_antisym ea eb); destruct (ea ?= eb)%Z; simpl; try reflexivity;
    change (Pos.compare_cont Eq mb ma) with (Pos.compare mb ma);
    change (Pos.compare_cont Eq ma mb) with (Pos.compare ma mb);
    rewrite (Pos.compare_antisym ma mb); destruct (ma ?= mb)%positive; reflexivity.
Qed.

(** X22 — on a Scalar the relational operators against a float fit
    together: [<=] is [<] or [==], [>=] is [>] or [==], [!=] is the opposite
    of [==], no two of [<], [==], [>] hold at once, and none of them holds
    exactly when the payload or the literal is NaN. *)
Theorem relational_operators_consistent (p x : float) :
  let v := value_float p in
  let lt := F32.ltb x p in let eq := F32.eqb x p in let gt := F32.ltb p x in
  op_lt_float v x = Ok lt /\ op_eq_float v x = Ok eq /\ op_gt_float v x = Ok gt /\
  op_le_float v x = Ok (lt || eq) /\
  op_ge_float v x = Ok (gt || eq) /\
  op_ne_float v x = Ok (negb eq) /\
  lt && eq = false /\ lt && gt = false /\ eq && gt = false /\
  (lt || eq || gt = false <-> is_nan p || is_nan x = true).
Proof.
  cbv zeta. unfold op_lt_float, op_eq_float, op_gt_float, op_le_float, op_ge_float,
    op_ne_float, op_eq_float, op_rel_float, negb_. simpl.
  unfold F32.ltb, F32.eqb, F32.leb, SFltb, SFeqb, SFleb.
  rewrite (SFcompare_antisym p x).
  assert (SFcompare x p = None <-> is_nan p || is_nan x = true) as Hn.
  { unfold SFcompare.
    destruct x as [sx|sx| |sx mx ex], p as [sp|sp| |sp mp ep]; simpl;
      split; intro H; try reflexivity; try discriminate H. }
  destruct (SFcompare x p) as [[]|]; simpl; repeat split; try reflexivity;
    try discriminate; try (intro H; apply Hn in H; discriminate H);
    try (intros _; apply Hn; reflexivity).
Qed.
